(** * DHrectPeriodicBound: a hyper-rectangle bound in periodic coordinates

    Shallow embedding of [fastlib/tree/dhrectperiodicbound_impl.h].

    Numbers.  A [double] is a rational, so the values are in [Q] and
    equality of results is [Qeq] (written [==]).  The file reads the code
    twice.  In the first reading the arithmetic is exact and the class
    template is taken at [t_pow = 2], the Euclidean instance the file
    header documents; there [pow(v, t_pow)] is [v * v] and the closing
    [pow(sum, 2.0 / t_pow)] is [sum ^ 1].  In the second reading, module
    [Fl], every arithmetic operation delivers the rounding of its exact
    result and the two powers are parameters; [Fl.rnd64] is the rounding of
    binary64.  Statements that compare signs or evaluate the code on small
    integers use the first reading; statements that depend on how the fold
    [x - floor(x / T) * T] rounds use the second.

    [DEBUG_SAME_SIZE] is modelled as a check whose failure is [Fatal]. *)

From Stdlib Require Import QArith Qround Qabs Qminmax Qpower Lqa.
From Stdlib Require Import List Lia ZArith Bool Arith.
Import ListNotations.

Open Scope Q_scope.

(** ** Outcome of a call: a value, or a failed debug assertion *)

Inductive result (A : Type) : Type :=
| Ok (a : A)
| Fatal.

Arguments Ok {A} a.
Arguments Fatal {A}.

Definition bind {A B : Type} (r : result A) (k : A -> result B) : result B :=
  match r with
  | Ok a => k a
  | Fatal => Fatal
  end.

Notation "r ;; k" := (bind r (fun _ => k))
  (at level 61, right associativity).

(** [returns r P]: the call finished normally with a value satisfying [P]. *)
Definition returns {A : Type} (r : result A) (P : A -> Prop) : Prop :=
  match r with
  | Ok a => P a
  | Fatal => False
  end.

Definition DEBUG_SAME_SIZE (x y : nat) : result unit :=
  if Nat.eqb x y then Ok tt else Fatal.

(** ** Arithmetic of the C library, on exact rationals *)

(** [floor] is exact on its argument.  In the first reading the argument
    [x / T] is the exact quotient; in module [Fl] it is the rounded one. *)
Definition floor (x : Q) : Q := inject_Z (Qfloor x).
Definition fabs (x : Q) : Q := Qabs x.
Definition min (x y : Q) : Q := Qmin x y.
Definition max (x y : Q) : Q := Qmax x y.

(** [x < y] and [x > y] as booleans. *)
Definition Qltb (x y : Q) : bool := negb (Qle_bool y x).
Definition Qgtb (x y : Q) : bool := Qltb y x.
Definition Qgeb (x y : Q) : bool := Qle_bool y x.

(** A C++ [bool] used as a factor in a product. *)
Definition b2q (b : bool) : Q := if b then 1 else 0.

(** The template parameter, taken at [2] in the first reading. *)
Definition t_pow : Z := 2.

(** [pow(v, (double) t_pow)] *)
Definition pow_t (v : Q) : Q := v ^ t_pow.

(** [pow(sum, 2.0 / (double) t_pow)]; the quotient is exact for [t_pow = 2]. *)
Definition root_t (sum : Q) : Q := sum ^ (2 / t_pow).

(** [double sum = 0; for (d = 0; d < n; d++) sum += term(d);] *)
Definition for_sum (n : nat) (term : nat -> Q) : Q :=
  fold_left (fun sum d => sum + term d) (seq 0 n) 0.

(** ** Data *)

Record DRange : Type := mkRange { lo : Q; hi : Q }.

Definition vec : Type := list Q.

(** [v[d]] *)
Definition at_ (v : vec) (d : nat) : Q := nth d v 0.

(** [bounds_] is the array of [dim_] ranges, so [dim_] is its length. *)
Record DHrectPeriodicBound : Type := mkBound {
  bounds_ : list DRange;
  box_size__ : vec
}.

Definition dim_ (b : DHrectPeriodicBound) : nat := length (bounds_ b).

(** [bounds_[d]] *)
Definition range_at (b : DHrectPeriodicBound) (d : nat) : DRange :=
  nth d (bounds_ b) (mkRange 0 0).

(** Modelled from the spec: [DRange::Contains], whose class is declared in a
    header outside this file: the coordinate literally falls in [[lo, hi]]. *)
Definition DRange_Contains (r : DRange) (d : Q) : bool :=
  Qle_bool (lo r) d && Qle_bool d (hi r).

(** Modelled from the spec: [DRange::mid], the average of [lo] and [hi]. *)
Definition DRange_mid (r : DRange) : Q := (hi r + lo r) / 2.

(** Modelled from the spec: [DRange::operator|=(double)], which widens
    [[lo, hi]] to cover the coordinate if it lies outside. *)
Definition DRange_include (r : DRange) (d : Q) : DRange :=
  mkRange (if Qltb d (lo r) then d else lo r)
          (if Qgtb d (hi r) then d else hi r).

(** ** Configuration *)

Definition SetBoxSize (b : DHrectPeriodicBound) (box : vec)
  : result DHrectPeriodicBound :=
  Ok (mkBound (bounds_ b) box).

Definition GetBoxSize (b : DHrectPeriodicBound) : vec := box_size__ b.

(** ** Containment *)

Definition Contains (b : DHrectPeriodicBound) (point : vec) : bool :=
  forallb (fun i => DRange_Contains (range_at b i) (at_ point i))
          (seq 0 (length point)).

Definition CalculateMidpoint (b : DHrectPeriodicBound) : vec :=
  map (fun i => DRange_mid (range_at b i)) (seq 0 (dim_ b)).

(** ** Distance queries *)

(** Loop body of [MinDistanceSq(const vec&)]: the value of [v] that is
    raised to [t_pow] and accumulated. *)
Definition MinDistanceSq_point_term (r : DRange) (box : Q) (p : Q) : Q :=
  let a := p in
  let v := 0 in
  let bh := hi r - lo r in
  let bh := bh - floor (bh / box) * box in
  let a := a - lo r in
  let a := a - floor (a / box) * box in
  let v := if Qgtb bh a then min (a - bh) (box - a) else v in
  v.

Definition MinDistanceSq_point (b : DHrectPeriodicBound) (point : vec) : Q :=
  let sum :=
    for_sum (dim_ b) (fun d =>
      pow_t (MinDistanceSq_point_term (range_at b d) (at_ (box_size__ b) d)
                                      (at_ point d))) in
  root_t sum.

(** Loop body of [MinDistanceSq(const DHrectBound&)]. *)
Definition MinDistanceSq_bound_term (r o : DRange) (box : Q) : Q :=
  let d1 := b2q (Qgtb (hi r) (lo r) || Qgtb (hi o) (lo o)) *
            min (lo o - hi r) (lo r - hi o) in
  let d2 := b2q (Qgtb (hi r) (lo r) && Qgtb (hi o) (lo o)) *
            min (lo o - hi r) (lo r - hi o + box) in
  let d3 := b2q (Qgtb (hi r) (lo r) && Qgtb (hi o) (lo o)) *
            min (lo o - hi r + box) (lo r - hi o) in
  (d1 + fabs d1) + (d2 + fabs d2) + (d3 + fabs d3).

Definition MinDistanceSq_bound (b other : DHrectPeriodicBound) : result Q :=
  DEBUG_SAME_SIZE (dim_ b) (dim_ other) ;;
  let sum :=
    for_sum (dim_ b) (fun d =>
      pow_t (MinDistanceSq_bound_term (range_at b d) (range_at other d)
                                      (at_ (box_size__ b) d))) in
  Ok (root_t sum / 4).

(** Loop body of [MaxDistanceSq(const vec&)]: the value of [v] whose
    absolute value is raised to [t_pow]. *)
Definition MaxDistanceSq_point_term (r : DRange) (box : Q) (p : Q) : Q :=
  let b := p in
  let v := box / 2 in
  let ah := hi r - b in
  let ah := ah - floor (ah / box) * box in
  if Qltb ah v then ah
  else
    let al := lo r - b in
    let al := al - floor (al / box) * box in
    if Qgtb al v then 2 * v - al else v.

Definition MaxDistanceSq_point (b : DHrectPeriodicBound) (point : vec) : Q :=
  let sum :=
    for_sum (dim_ b) (fun d =>
      pow_t (fabs (MaxDistanceSq_point_term (range_at b d)
                     (at_ (box_size__ b) d) (at_ point d)))) in
  root_t sum.

(** Loop body of [MaxDistanceSq(const DHrectBound&)]. *)
Definition MaxDistanceSq_bound_term (r o : DRange) (box : Q) : Q :=
  let v := box / 2 in
  let dh := hi r - lo o in
  let dh := dh - floor (dh / box) * box in
  let dl := hi o - lo r in
  let dl := dl - floor (dl / box) * box in
  fabs (max (min dh v) (min dl v)).

Definition MaxDistanceSq_bound (b other : DHrectPeriodicBound) : result Q :=
  DEBUG_SAME_SIZE (dim_ b) (dim_ other) ;;
  let sum :=
    for_sum (dim_ b) (fun d =>
      pow_t (MaxDistanceSq_bound_term (range_at b d) (range_at other d)
                                      (at_ (box_size__ b) d))) in
  Ok (root_t sum).

Definition MaxDelta (b other : DHrectPeriodicBound) (box_width : Q)
    (dim : nat) : Q :=
  let result := (1 # 2) * box_width in
  let temp := hi (range_at other dim) - lo (range_at b dim) in
  let temp := temp - floor (temp / box_width) * box_width in
  if Qgtb temp (box_width / 2) then
    let temp := lo (range_at other dim) - hi (range_at b dim) in
    let temp := temp - floor (temp / box_width) * box_width in
    if Qgtb temp (box_width / 2) then
      let result := hi (range_at other dim) - lo (range_at b dim) in
      result - floor (temp / box_width + 1) * box_width
    else result
  else temp.

Definition MinDelta (b other : DHrectPeriodicBound) (box_width : Q)
    (dim : nat) : Q :=
  let result := - (1 # 2) * box_width in
  let temp := hi (range_at other dim) - lo (range_at b dim) in
  let temp := temp - floor (temp / box_width) * box_width in
  if Qgtb temp (box_width / 2) then
    let temp := hi (range_at other dim) - hi (range_at b dim) in
    let temp := temp - floor (temp / box_width) * box_width in
    if Qgtb temp (box_width / 2) then temp - box_width else result
  else
    let temp := hi (range_at other dim) - hi (range_at b dim) in
    temp - floor (temp / box_width) * box_width.

(** Loop body of [RangeDistanceSq(const DHrectBound&)]: [(v_lo, v_hi)]. *)
Definition RangeDistanceSq_bound_term (r o : DRange) : Q * Q :=
  let v1 := lo o - hi r in
  let v2 := lo r - hi o in
  if Qgeb v1 v2 then (if Qgtb v1 0 then v1 else 0, - v2)
  else (if Qgtb v2 0 then v2 else 0, - v1).

(** The returned [DRange(lo, hi)] is the pair of the two roots. *)
Definition RangeDistanceSq_bound (b other : DHrectPeriodicBound)
  : result DRange :=
  DEBUG_SAME_SIZE (dim_ b) (dim_ other) ;;
  let sum_lo :=
    for_sum (dim_ b) (fun d =>
      pow_t (fst (RangeDistanceSq_bound_term (range_at b d)
                                             (range_at other d)))) in
  let sum_hi :=
    for_sum (dim_ b) (fun d =>
      pow_t (snd (RangeDistanceSq_bound_term (range_at b d)
                                             (range_at other d)))) in
  Ok (mkRange (root_t sum_lo) (root_t sum_hi)).

(** Loop body of [MinToMidSq]. *)
Definition MinToMidSq_term (r o : DRange) : Q :=
  let v := DRange_mid o in
  let v1 := lo r - v in
  let v2 := v - hi r in
  (v1 + fabs v1) + (v2 + fabs v2).

Definition MinToMidSq (b other : DHrectPeriodicBound) : result Q :=
  DEBUG_SAME_SIZE (dim_ b) (dim_ other) ;;
  let sum :=
    for_sum (dim_ b) (fun d =>
      pow_t (MinToMidSq_term (range_at b d) (range_at other d))) in
  Ok (root_t sum / 4).

Definition MidDistanceSq (b other : DHrectPeriodicBound) : result Q :=
  DEBUG_SAME_SIZE (dim_ b) (dim_ other) ;;
  let sum :=
    for_sum (dim_ b) (fun d =>
      pow_t (fabs (hi (range_at b d) + lo (range_at b d)
                   - hi (range_at other d) - lo (range_at other d)))) in
  Ok (root_t sum / 4).

(** ** Expansion in periodic coordinates *)

(** Second loop body of [Add(const vec&, const vec&)]. *)
Definition Add_point_axis (r : DRange) (o size : Q) : DRange :=
  let ah := hi r - o in
  let al := lo r - o in
  let ah := ah - floor (ah / size) * size in
  let al := al - floor (al / size) * size in
  if Qltb ah al then
    if Qltb (size - ah) al then mkRange (lo r) o else mkRange o (hi r)
  else r.

Definition Add_point (b : DHrectPeriodicBound) (other size : vec)
  : result DHrectPeriodicBound :=
  DEBUG_SAME_SIZE (length other) (dim_ b) ;;
  let bounds1 :=
    if Qltb (hi (range_at b 0)) 0 then
      map (fun i => DRange_include (range_at b i) (at_ other i))
          (seq 0 (dim_ b))
    else bounds_ b in
  let b1 := mkBound bounds1 (box_size__ b) in
  let bounds2 :=
    map (fun i => Add_point_axis (range_at b1 i) (at_ other i) (at_ size i))
        (seq 0 (dim_ b)) in
  Ok (mkBound bounds2 (box_size__ b)).

(** ** The remaining operations of the class *)

(** Modelled from the spec: [DRange::operator|=(const DRange&)], the union
    of two ranges; the class is declared in a header outside this file. *)
Definition DRange_union (r o : DRange) : DRange :=
  mkRange (if Qltb (lo o) (lo r) then lo o else lo r)
          (if Qgtb (hi o) (hi r) then hi o else hi r).

(** Modelled from the spec: [DRange::operator+] and [DRange::operator*=],
    which [AverageBoxesInit] uses so that "the max and min of each range is
    the average of the maxes and mins of the arguments". *)
Definition DRange_plus (r o : DRange) : DRange :=
  mkRange (lo r + lo o) (hi r + hi o).

Definition DRange_scale (r : DRange) (d : Q) : DRange :=
  mkRange (lo r * d) (hi r * d).

Definition DEBUG_ASSERT (c : bool) : result unit :=
  if c then Ok tt else Fatal.

Definition AverageBoxesInit (b box1 box2 : DHrectPeriodicBound)
  : result DHrectPeriodicBound :=
  let dim := dim_ box1 in
  DEBUG_ASSERT (Nat.eqb dim (dim_ box2)) ;;
  Ok (mkBound
        (map (fun i =>
                let range := DRange_plus (range_at box1 i) (range_at box2 i) in
                DRange_scale range (1 # 2))
             (seq 0 dim))
        (box_size__ b)).

(** [operator|=(const vec&)] *)
Definition operator_or_assign_vec (b : DHrectPeriodicBound) (vector : vec)
  : result DHrectPeriodicBound :=
  DEBUG_SAME_SIZE (length vector) (dim_ b) ;;
  Ok (mkBound
        (map (fun i => DRange_include (range_at b i) (at_ vector i))
             (seq 0 (dim_ b)))
        (box_size__ b)).

(** [operator|=(const DHrectBound&)] *)
Definition operator_or_assign_bound (b other : DHrectPeriodicBound)
  : result DHrectPeriodicBound :=
  DEBUG_SAME_SIZE (dim_ other) (dim_ b) ;;
  Ok (mkBound
        (map (fun i => DRange_union (range_at b i) (range_at other i))
             (seq 0 (dim_ b)))
        (box_size__ b)).

(** Loop body of [RangeDistanceSq(const vec&)]: [(v_lo, v_hi)]. *)
Definition RangeDistanceSq_point_term (r : DRange) (p : Q) : Q * Q :=
  let v1 := lo r - p in
  let v2 := p - hi r in
  if Qgeb v1 0 then (v1, - v2) else (v2, - v1).

Definition RangeDistanceSq_point (b : DHrectPeriodicBound) (point : vec)
  : result DRange :=
  DEBUG_SAME_SIZE (length point) (dim_ b) ;;
  let sum_lo :=
    for_sum (dim_ b) (fun d =>
      pow_t (fst (RangeDistanceSq_point_term (range_at b d)
                                             (at_ point d)))) in
  let sum_hi :=
    for_sum (dim_ b) (fun d =>
      pow_t (snd (RangeDistanceSq_point_term (range_at b d)
                                             (at_ point d)))) in
  Ok (mkRange (root_t sum_lo) (root_t sum_hi)).

(** Loop body of [MinimaxDistanceSq]. *)
Definition MinimaxDistanceSq_term (r o : DRange) : Q :=
  let v1 := hi o - hi r in
  let v2 := lo r - lo o in
  let v := max v1 v2 in
  v + fabs v.

Definition MinimaxDistanceSq (b other : DHrectPeriodicBound) : result Q :=
  DEBUG_SAME_SIZE (dim_ b) (dim_ other) ;;
  let sum :=
    for_sum (dim_ b) (fun d =>
      pow_t (MinimaxDistanceSq_term (range_at b d) (range_at other d))) in
  Ok (root_t sum / 4).

(** Second loop body of [Add(const DHrectBound&, const vec&)]; the three
    [if]s run in sequence on the same folded [ah], [bh], [bl]. *)
Definition Add_bound_axis (r o : DRange) (size : Q) : DRange :=
  let ah := hi r in
  let al := lo r in
  let bh := hi o in
  let bl := lo o in
  let ah := ah - al in
  let bh := bh - al in
  let bl := bl - al in
  let ah := ah - floor (ah / size) * size in
  let bh := bh - floor (bh / size) * size in
  let bl := bl - floor (bl / size) * size in
  let r1 :=
    if (Qgtb bh ah && (Qltb bh bl || Qgtb ah bl))
       || (Qgeb bh bl && Qgtb bl ah && Qltb bh (ah - bl + size))
    then mkRange (lo r) (hi o) else r in
  let r2 :=
    if Qgtb bl ah && (Qgtb bl bh || Qgeb bh (ah - bl + size))
    then mkRange (lo o) (hi r1) else r1 in
  if Qgtb ah bl && Qgtb bl bh then mkRange 0 size else r2.

Definition Add_bound (b other : DHrectPeriodicBound) (size : vec)
  : DHrectPeriodicBound :=
  let bounds1 :=
    if Qltb (hi (range_at b 0)) 0 then
      map (fun i => DRange_union (range_at b i) (range_at other i))
          (seq 0 (dim_ b))
    else bounds_ b in
  let b1 := mkBound bounds1 (box_size__ b) in
  mkBound
    (map (fun i => Add_bound_axis (range_at b1 i) (range_at other i)
                                  (at_ size i))
         (seq 0 (dim_ b)))
    (box_size__ b).

(** ** Auxiliary notions used by the statements *)

(** [wrap x T] names the folding idiom [x - floor(x / T) * T] that the code
    writes out at every use. *)
Definition wrap (x T : Q) : Q := x - floor (x / T) * T.

(** A boolean test that holds on every axis [d < n]. *)
Definition all_axes (n : nat) (P : nat -> bool) : bool :=
  forallb P (seq 0 n).

(** Every period component is strictly positive. *)
Definition period_positive (b : DHrectPeriodicBound) : bool :=
  all_axes (dim_ b) (fun d => Qltb 0 (at_ (box_size__ b) d)).

(** Every axis has [lo <= hi]. *)
Definition nonempty (b : DHrectPeriodicBound) : bool :=
  all_axes (dim_ b) (fun d =>
    Qle_bool (lo (range_at b d)) (hi (range_at b d))).

(** A period vector is valid when every component is strictly positive. *)
Definition valid_period (box : vec) : bool :=
  forallb (fun x => Qltb 0 x) box.

(** On every axis the two ranges share a coordinate. *)
Definition overlapping (A B : DHrectPeriodicBound) : bool :=
  all_axes (dim_ A) (fun d =>
    Qle_bool (lo (range_at B d)) (hi (range_at A d)) &&
    Qle_bool (lo (range_at A d)) (hi (range_at B d))).

(** On every axis both ranges have positive width, [B] starts at or after
    the end of [A], and the two together fit in one period. *)
Definition apart_within_period (A B : DHrectPeriodicBound) : bool :=
  all_axes (dim_ A) (fun d =>
    Qltb (lo (range_at A d)) (hi (range_at A d)) &&
    Qle_bool (hi (range_at A d)) (lo (range_at B d)) &&
    Qltb (lo (range_at B d)) (hi (range_at B d)) &&
    Qle_bool (hi (range_at B d) - lo (range_at A d))
             (at_ (box_size__ A) d)).

(** On every axis the range is non-empty and the coordinate of the point
    is not strictly inside it. *)
Definition not_inside (b : DHrectPeriodicBound) (p : vec) : bool :=
  all_axes (dim_ b) (fun d =>
    Qle_bool (lo (range_at b d)) (hi (range_at b d)) &&
    (Qle_bool (at_ p d) (lo (range_at b d)) ||
     Qle_bool (hi (range_at b d)) (at_ p d))).

(** On every axis the size is positive, the range is non-empty and
    narrower than the size, and the coordinate of the point, folded from
    [lo], falls beyond the width of the range. *)
Definition outside_folded (b : DHrectPeriodicBound) (p size : vec) : bool :=
  all_axes (dim_ b) (fun d =>
    Qltb 0 (at_ size d) &&
    Qle_bool (lo (range_at b d)) (hi (range_at b d)) &&
    Qltb (hi (range_at b d) - lo (range_at b d)) (at_ size d) &&
    Qltb (hi (range_at b d) - lo (range_at b d))
         (wrap (at_ p d - lo (range_at b d)) (at_ size d))).

(** On every axis [hi < p < lo]: the range is empty and the coordinate of
    the point lies between its two ends. *)
Definition empty_around (b : DHrectPeriodicBound) (p : vec) : bool :=
  all_axes (dim_ b) (fun d =>
    Qltb (at_ p d) (lo (range_at b d)) &&
    Qltb (hi (range_at b d)) (at_ p d)).

(** On every axis the size is positive, the range of [b] is narrower than
    the size and the non-empty range of [other] lies within it. *)
Definition encloses (b other : DHrectPeriodicBound) (size : vec) : bool :=
  all_axes (dim_ b) (fun d =>
    Qltb 0 (at_ size d) &&
    Qle_bool (lo (range_at b d)) (lo (range_at other d)) &&
    Qle_bool (lo (range_at other d)) (hi (range_at other d)) &&
    Qle_bool (hi (range_at other d)) (hi (range_at b d)) &&
    Qltb (hi (range_at b d) - lo (range_at b d)) (at_ size d)).

(** On every axis [lo <= hi < other.lo <= other.hi < lo + size]: [other]
    lies wholly after [b] and both fit in one period counted from [lo]. *)
Definition follows (b other : DHrectPeriodicBound) (size : vec) : bool :=
  all_axes (dim_ b) (fun d =>
    Qle_bool (lo (range_at b d)) (hi (range_at b d)) &&
    Qltb (hi (range_at b d)) (lo (range_at other d)) &&
    Qle_bool (lo (range_at other d)) (hi (range_at other d)) &&
    Qltb (hi (range_at other d)) (lo (range_at b d) + at_ size d)).

(** ** The same code with every arithmetic operation rounded

    In this reading each [+], [-], [*] and [/] of the source delivers the
    rounding [rnd] of its exact result, as binary64 arithmetic does; [floor],
    [fabs], [min], [max] and the comparisons are exact on their arguments.
    [pow(v, (double) t_pow)] and [pow(sum, 2.0 / (double) t_pow)] are the two
    functions [pow_t] and [root_t], so that no value of [t_pow] is fixed. *)

Module Fl.
Section Rounded.

Variable rnd : Q -> Q.
Variable pow_t : Q -> Q.
Variable root_t : Q -> Q.

Definition add (x y : Q) : Q := rnd (x + y).
Definition sub (x y : Q) : Q := rnd (x - y).
Definition mul (x y : Q) : Q := rnd (x * y).
Definition div (x y : Q) : Q := rnd (x / y).

(** [double sum = 0; for (d = 0; d < n; d++) sum += term(d);] *)
Definition for_sum (n : nat) (term : nat -> Q) : Q :=
  fold_left (fun sum d => add sum (term d)) (seq 0 n) 0.

(** Loop body of [MinDistanceSq(const vec&)]. *)
Definition MinDistanceSq_point_term (r : DRange) (box : Q) (p : Q) : Q :=
  let a := p in
  let v := 0 in
  let bh := sub (hi r) (lo r) in
  let bh := sub bh (mul (floor (div bh box)) box) in
  let a := sub a (lo r) in
  let a := sub a (mul (floor (div a box)) box) in
  let v := if Qgtb bh a then min (sub a bh) (sub box a) else v in
  v.

Definition MinDistanceSq_point (b : DHrectPeriodicBound) (point : vec)
  : Q :=
  let sum :=
    for_sum (dim_ b) (fun d =>
      pow_t (MinDistanceSq_point_term (range_at b d)
               (at_ (box_size__ b) d) (at_ point d))) in
  root_t sum.

(** Loop body of [MaxDistanceSq(const vec&)]. *)
Definition MaxDistanceSq_point_term (r : DRange) (box : Q) (p : Q) : Q :=
  let b := p in
  let v := div box 2 in
  let ah := sub (hi r) b in
  let ah := sub ah (mul (floor (div ah box)) box) in
  if Qltb ah v then ah
  else
    let al := sub (lo r) b in
    let al := sub al (mul (floor (div al box)) box) in
    if Qgtb al v then sub (mul 2 v) al else v.

Definition MaxDistanceSq_point (b : DHrectPeriodicBound) (point : vec)
  : Q :=
  let sum :=
    for_sum (dim_ b) (fun d =>
      pow_t (fabs (MaxDistanceSq_point_term (range_at b d)
                     (at_ (box_size__ b) d) (at_ point d)))) in
  root_t sum.

(** Loop body of [MaxDistanceSq(const DHrectBound&)]. *)
Definition MaxDistanceSq_bound_term (r o : DRange) (box : Q) : Q :=
  let v := div box 2 in
  let dh := sub (hi r) (lo o) in
  let dh := sub dh (mul (floor (div dh box)) box) in
  let dl := sub (hi o) (lo r) in
  let dl := sub dl (mul (floor (div dl box)) box) in
  fabs (max (min dh v) (min dl v)).

Definition MaxDistanceSq_bound (b other : DHrectPeriodicBound)
  : result Q :=
  DEBUG_SAME_SIZE (dim_ b) (dim_ other) ;;
  let sum :=
    for_sum (dim_ b) (fun d =>
      pow_t (MaxDistanceSq_bound_term (range_at b d) (range_at other d)
                                      (at_ (box_size__ b) d))) in
  Ok (root_t sum).

(** The folding idiom [x - floor(x / T) * T], named for the statements. *)
Definition wrap (x T : Q) : Q := sub x (mul (floor (div x T)) T).

(** The half-period vector aggregated like a distance: each
    [box_size[d] / 2.0] raised by [pow_t], summed and rooted. *)
Definition half_period_sq (b : DHrectPeriodicBound) : Q :=
  root_t (for_sum (dim_ b) (fun d => pow_t (div (at_ (box_size__ b) d) 2))).

(** The widths [hi - lo] of the axes aggregated like a distance. *)
Definition diagonal_sq (b : DHrectPeriodicBound) : Q :=
  root_t (for_sum (dim_ b) (fun d =>
            pow_t (sub (hi (range_at b d)) (lo (range_at b d))))).

End Rounded.

(** Nearest integer to [s], ties to even. *)
Definition round_half_even (s : Q) : Z :=
  let f := Qfloor s in
  match Qcompare (s - inject_Z f) (1 # 2) with
  | Lt => f
  | Gt => (f + 1)%Z
  | Eq => if Z.even f then f else (f + 1)%Z
  end.

(** The exponent [e] with [2^52 * 2^e <= a < 2^53 * 2^e], for [0 < a]. *)
Definition binade (a : Q) : Z :=
  let e0 := (Z.log2 (Qnum a) - Z.log2 (Zpos (Qden a)) - 52)%Z in
  if Qle_bool (2 ^ 52) (a / 2 ^ e0) then e0 else (e0 - 1)%Z.

Definition in_binade (a : Q) (e : Z) : Prop :=
  4503599627370496 * 2 ^ e <= a /\ a < 9007199254740992 * 2 ^ e.

(** Binary64 rounding: to nearest, ties to even, on a 53-bit significand.
    The exponent is not bounded, so the value is the binary64 one whenever
    the operation neither overflows nor underflows. *)
Definition rnd64 (q : Q) : Q :=
  if Qeq_bool q 0 then 0
  else
    let a := Qabs q in
    let e := binade a in
    let v := inject_Z (round_half_even (a / 2 ^ e)) * 2 ^ e in
    if Qle_bool 0 q then v else - v.

(** [pow(v, 2.0)] and [pow(sum, 1.0)] of the instance [t_pow = 2]. *)
Definition pow2 (v : Q) : Q := rnd64 (v * v).
Definition root1 (sum : Q) : Q := sum.

(** [pow(v, 1.0)] and [pow(sum, 2.0)] of the instance [t_pow = 1]. *)
Definition pow1 (v : Q) : Q := v.
Definition root2 (sum : Q) : Q := rnd64 (sum * sum).

(** The unit roundoff of binary64. *)
Definition eps : Q := 1 # 9007199254740992.

(** What the statements ask of the rounding: it is monotone, odd and
    idempotent, doubling a rounded value is exact, and the relative error
    is at most [eps].  Binary64 rounding to nearest has these properties as
    long as nothing overflows or underflows, and [rnd64] has them; so has
    exact arithmetic. *)
Record Rounding (rnd : Q -> Q) : Prop := {
  rnd_mono : forall x y, x <= y -> rnd x <= rnd y;
  rnd_opp : forall x, rnd (- x) == - rnd x;
  rnd_idem : forall x, rnd (rnd x) == rnd x;
  rnd_double : forall x, rnd (2 * rnd x) == 2 * rnd x;
  rnd_err : forall x, Qabs (rnd x - x) <= eps * Qabs x
}.

(** What the statements ask of [pow] with a fixed exponent: on non-negative
    arguments it is non-negative and monotone. *)
Record Power (pow : Q -> Q) : Prop := {
  pow_nonneg : forall x, 0 <= x -> 0 <= pow x;
  pow_mono : forall x y, 0 <= x -> x <= y -> pow x <= pow y
}.

End Fl.

(** On every axis both ends of the bound lie within [2^50] periods of the
    coordinate of the point. *)
Definition near_point (b : DHrectPeriodicBound) (p : vec) : bool :=
  all_axes (dim_ b) (fun d =>
    Qle_bool (Qabs (hi (range_at b d) - at_ p d))
             (1125899906842624 * at_ (box_size__ b) d) &&
    Qle_bool (Qabs (lo (range_at b d) - at_ p d))
             (1125899906842624 * at_ (box_size__ b) d)).

(** On every axis the opposite ends of the two bounds lie within [2^50]
    periods of each other. *)
Definition near_bound (b other : DHrectPeriodicBound) : bool :=
  all_axes (dim_ b) (fun d =>
    Qle_bool (Qabs (hi (range_at b d) - lo (range_at other d)))
             (1125899906842624 * at_ (box_size__ b) d) &&
    Qle_bool (Qabs (hi (range_at other d) - lo (range_at b d)))
             (1125899906842624 * at_ (box_size__ b) d)).

(** * Properties *)

(** ** Comparisons *)

Lemma Qltb_true (x y : Q) : Qltb x y = true <-> x < y.
Proof.
  unfold Qltb. rewrite negb_true_iff.
  destruct (Qle_bool y x) eqn:E.
  - apply Qle_bool_iff in E. split; [discriminate | intro; lra].
  - split; [intros _ | reflexivity].
    destruct (Qlt_le_dec x y) as [H | H]; [exact H |].
    apply Qle_bool_iff in H. congruence.
Qed.

Lemma Qltb_false (x y : Q) : Qltb x y = false <-> y <= x.
Proof.
  unfold Qltb. rewrite negb_false_iff. apply Qle_bool_iff.
Qed.

Lemma Qgtb_true (x y : Q) : Qgtb x y = true <-> y < x.
Proof. apply Qltb_true. Qed.

Lemma Qgtb_false (x y : Q) : Qgtb x y = false <-> x <= y.
Proof. apply Qltb_false. Qed.

Lemma Qgeb_true (x y : Q) : Qgeb x y = true <-> y <= x.
Proof. apply Qle_bool_iff. Qed.

Lemma Qgeb_false (x y : Q) : Qgeb x y = false <-> x < y.
Proof.
  unfold Qgeb. destruct (Qle_bool y x) eqn:E.
  - apply Qle_bool_iff in E. split; [discriminate | intro; lra].
  - split; [intros _ | reflexivity].
    destruct (Qlt_le_dec x y) as [H | H]; [exact H |].
    apply Qle_bool_iff in H. congruence.
Qed.

(** Case analysis on a comparison, leaving the order fact in the context. *)
Ltac cases_cmp :=
  match goal with
  | |- context [Qltb ?x ?y] =>
      let E := fresh "E" in
      destruct (Qltb x y) eqn:E;
      [apply Qltb_true in E | apply Qltb_false in E]
  | |- context [Qgtb ?x ?y] =>
      let E := fresh "E" in
      destruct (Qgtb x y) eqn:E;
      [apply Qgtb_true in E | apply Qgtb_false in E]
  | |- context [Qgeb ?x ?y] =>
      let E := fresh "E" in
      destruct (Qgeb x y) eqn:E;
      [apply Qgeb_true in E | apply Qgeb_false in E]
  end.

#[global] Instance Qltb_Proper : Proper (Qeq ==> Qeq ==> eq) Qltb.
Proof.
  intros x x' Hx y y' Hy. unfold Qltb. now rewrite Hx, Hy.
Qed.

#[global] Instance Qgtb_Proper : Proper (Qeq ==> Qeq ==> eq) Qgtb.
Proof.
  intros x x' Hx y y' Hy. unfold Qgtb. now rewrite Hx, Hy.
Qed.

#[global] Instance min_Proper : Proper (Qeq ==> Qeq ==> Qeq) min.
Proof. intros x x' Hx y y' Hy. unfold min. now rewrite Hx, Hy. Qed.

#[global] Instance floor_Proper : Proper (Qeq ==> Qeq) floor.
Proof. intros x x' Hx. unfold floor. now rewrite Hx. Qed.

(** ** Powers *)

Lemma pow_t_sq (v : Q) : pow_t v == v * v.
Proof. unfold pow_t, t_pow. simpl. reflexivity. Qed.

Lemma root_t_id (s : Q) : root_t s == s.
Proof. unfold root_t, t_pow. simpl. reflexivity. Qed.

#[global] Instance pow_t_Proper : Proper (Qeq ==> Qeq) pow_t.
Proof. intros x y H. rewrite !pow_t_sq. now rewrite H. Qed.

#[global] Instance root_t_Proper : Proper (Qeq ==> Qeq) root_t.
Proof. intros x y H. rewrite !root_t_id. exact H. Qed.

Lemma pow_t_nonneg (v : Q) : 0 <= pow_t v.
Proof. rewrite pow_t_sq. nra. Qed.

Lemma pow_t_le (u v : Q) : 0 <= u -> u <= v -> pow_t u <= pow_t v.
Proof. intros. rewrite !pow_t_sq. nra. Qed.

Lemma pow_t_fabs (v : Q) : pow_t (fabs v) == pow_t v.
Proof.
  rewrite !pow_t_sq. unfold fabs.
  apply Qabs_case; intros; ring.
Qed.

Lemma half_eq (x : Q) : x / 2 == x * (1 # 2).
Proof. reflexivity. Qed.

(** Writes every [x / 2] as [x * (1 # 2)], the form linear arithmetic reads. *)
Ltac halves :=
  repeat match goal with
         | |- context [?x / 2] => change (x / 2) with (x * (1 # 2))
         | H : context [?x / 2] |- _ =>
             change (x / 2) with (x * (1 # 2)) in H
         end.

(** ** Folding a coordinate into one period

    Facts of the first reading, where the quotient and the product of the
    fold [x - floor(x / T) * T] are exact.  The rounded fold is treated in
    the last part of the file. *)

Lemma fold_range (x T : Q) :
  0 < T -> let y := x - floor (x / T) * T in 0 <= y /\ y < T.
Proof.
  intros HT y. subst y. unfold floor.
  pose proof (Qfloor_le (x / T)) as Hl.
  pose proof (Qlt_floor (x / T)) as Hu.
  rewrite inject_Z_plus in Hu. change (inject_Z 1) with 1 in Hu.
  assert (Hx : x == (x / T) * T) by (field; lra).
  set (q := x / T) in *. set (f := inject_Z (Qfloor q)) in *.
  split.
  - assert (f * T <= q * T) by nra. lra.
  - assert (q * T < (f + 1) * T) by nra. lra.
Qed.

Lemma Qfloor_add_Z (x : Q) (k : Z) :
  Qfloor (x + inject_Z k) = (Qfloor x + k)%Z.
Proof.
  pose proof (Qfloor_le x) as Hl.
  pose proof (Qlt_floor x) as Hu.
  pose proof (Qfloor_le (x + inject_Z k)) as Hl'.
  pose proof (Qlt_floor (x + inject_Z k)) as Hu'.
  rewrite inject_Z_plus in Hu, Hu'. change (inject_Z 1) with 1 in Hu, Hu'.
  assert (H1 : inject_Z (Qfloor (x + inject_Z k))
               < inject_Z (Qfloor x + k + 1)).
  { rewrite !inject_Z_plus. change (inject_Z 1) with 1. lra. }
  assert (H2 : inject_Z (Qfloor x + k)
               < inject_Z (Qfloor (x + inject_Z k) + 1)).
  { rewrite !inject_Z_plus. change (inject_Z 1) with 1. lra. }
  rewrite <- Zlt_Qlt in H1, H2. lia.
Qed.

Lemma fold_shift (x T : Q) (k : Z) :
  0 < T ->
  (x + inject_Z k * T) - floor ((x + inject_Z k * T) / T) * T
  == x - floor (x / T) * T.
Proof.
  intros HT. unfold floor.
  assert (E : (x + inject_Z k * T) / T == x / T + inject_Z k)
    by (field; lra).
  rewrite (Qfloor_comp _ _ E), Qfloor_add_Z, inject_Z_plus. ring.
Qed.

Lemma fold_id (x T : Q) :
  0 <= x -> x < T -> x - floor (x / T) * T == x.
Proof.
  intros H0 HT. unfold floor.
  assert (HTpos : 0 < T) by lra.
  assert (E : Qfloor (x / T) = 0%Z).
  { pose proof (Qfloor_le (x / T)) as Hl.
    pose proof (Qlt_floor (x / T)) as Hu.
    rewrite inject_Z_plus in Hu. change (inject_Z 1) with 1 in Hu.
    assert (Hx : x == (x / T) * T) by (field; lra).
    set (q := x / T) in *.
    assert (Hq0 : 0 <= q).
    { destruct (Qlt_le_dec q 0) as [Hn | Hn]; [| exact Hn].
      assert (q * T < 0) by nra. lra. }
    assert (Hq1 : q < 1).
    { destruct (Qlt_le_dec q 1) as [Hn | Hn]; [exact Hn |].
      assert (T <= q * T) by nra. lra. }
    assert (A : inject_Z (Qfloor q) < inject_Z 1)
      by (change (inject_Z 1) with 1; lra).
    assert (B : inject_Z (-1) < inject_Z (Qfloor q)).
    { change (inject_Z (-1)) with (-1). lra. }
    rewrite <- Zlt_Qlt in A, B. lia. }
  rewrite E. change (inject_Z 0) with 0. ring.
Qed.

(** ** The accumulation loop *)

Lemma for_sum_S (n : nat) (f : nat -> Q) :
  for_sum (S n) f = for_sum n f + f n.
Proof.
  unfold for_sum. rewrite seq_S, fold_left_app. reflexivity.
Qed.

Lemma for_sum_ext (n : nat) (f g : nat -> Q) :
  (forall d, (d < n)%nat -> f d == g d) -> for_sum n f == for_sum n g.
Proof.
  induction n as [| n IH]; intros H.
  - reflexivity.
  - rewrite !for_sum_S, IH, (H n) by (intros; auto with arith).
    reflexivity.
Qed.

Lemma for_sum_le (n : nat) (f g : nat -> Q) :
  (forall d, (d < n)%nat -> f d <= g d) -> for_sum n f <= for_sum n g.
Proof.
  induction n as [| n IH]; intros H.
  - apply Qle_refl.
  - rewrite !for_sum_S.
    apply Qplus_le_compat; [apply IH; auto with arith | apply H; lia].
Qed.

Lemma for_sum_nonneg (n : nat) (f : nat -> Q) :
  (forall d, (d < n)%nat -> 0 <= f d) -> 0 <= for_sum n f.
Proof.
  induction n as [| n IH]; intros H.
  - apply Qle_refl.
  - rewrite for_sum_S.
    assert (0 <= for_sum n f) by (apply IH; auto with arith).
    assert (0 <= f n) by (apply H; lia). lra.
Qed.

(** ** Indexing *)

Lemma DEBUG_SAME_SIZE_refl (n : nat) : DEBUG_SAME_SIZE n n = Ok tt.
Proof. unfold DEBUG_SAME_SIZE. now rewrite Nat.eqb_refl. Qed.

Lemma at_map_seq (f : nat -> Q) (n d : nat) :
  (d < n)%nat -> at_ (map f (seq 0 n)) d = f d.
Proof.
  intros Hd. unfold at_.
  rewrite (nth_indep _ 0 (f 0%nat)) by (now rewrite length_map, length_seq).
  rewrite map_nth, seq_nth by exact Hd. reflexivity.
Qed.

#[global] Instance wrap_Proper : Proper (Qeq ==> Qeq ==> Qeq) wrap.
Proof. intros x x' Hx T T' HT. unfold wrap. now rewrite Hx, HT. Qed.

Lemma wrap_range (x T : Q) : 0 < T -> 0 <= wrap x T /\ wrap x T < T.
Proof. intros HT. exact (fold_range x T HT). Qed.

Lemma wrap_shift (x T : Q) (k : Z) :
  0 < T -> wrap (x + inject_Z k * T) T == wrap x T.
Proof. intros HT. exact (fold_shift x T k HT). Qed.

Lemma wrap_id (x T : Q) : 0 <= x -> x < T -> wrap x T == x.
Proof. intros H0 HT. exact (fold_id x T H0 HT). Qed.

(** Two coordinates that differ by a whole number of periods fold alike. *)
Lemma wrap_congr (x y T : Q) (k : Z) :
  0 < T -> x == y + inject_Z k * T -> wrap x T == wrap y T.
Proof. intros HT E. rewrite E. now apply wrap_shift. Qed.

(** [x] is its folded value plus a whole number of periods. *)
Lemma wrap_decomp (x T : Q) :
  x == wrap x T + inject_Z (Qfloor (x / T)) * T.
Proof. unfold wrap, floor. ring. Qed.

Lemma all_axes_spec (n : nat) (P : nat -> bool) :
  all_axes n P = true <-> forall d, (d < n)%nat -> P d = true.
Proof.
  unfold all_axes. rewrite forallb_forall. split.
  - intros H d Hd. apply H, in_seq. lia.
  - intros H d Hd. apply in_seq in Hd. apply H. lia.
Qed.

Lemma period_positive_at (b : DHrectPeriodicBound) (d : nat) :
  period_positive b = true -> (d < dim_ b)%nat -> 0 < at_ (box_size__ b) d.
Proof.
  intros H Hd. unfold period_positive in H.
  rewrite all_axes_spec in H. apply Qltb_true, H, Hd.
Qed.

Lemma nonempty_at (b : DHrectPeriodicBound) (d : nat) :
  nonempty b = true -> (d < dim_ b)%nat ->
  lo (range_at b d) <= hi (range_at b d).
Proof.
  intros H Hd. unfold nonempty in H.
  rewrite all_axes_spec in H. apply Qle_bool_iff, H, Hd.
Qed.

Lemma Contains_at (b : DHrectPeriodicBound) (point : vec) (d : nat) :
  Contains b point = true -> (d < length point)%nat ->
  lo (range_at b d) <= at_ point d /\ at_ point d <= hi (range_at b d).
Proof.
  intros H Hd. unfold Contains in H. rewrite forallb_forall in H.
  assert (Hin : In d (seq 0 (length point))) by (apply in_seq; lia).
  specialize (H d Hin). unfold DRange_Contains in H.
  apply andb_true_iff in H. destruct H as [H1 H2].
  split; now apply Qle_bool_iff.
Qed.

(** ** C1: minimum and maximum distance to a point *)

(** C1, as stated, fails.  The point [2] is contained in [[1, 3]] (period
    [10]) and its maximum distance is [1], not [0]: an end of the range is
    one unit away.  That is so in exact arithmetic and in binary64, at
    [t_pow = 2] and at [t_pow = 1].  The two parts on [MinDistanceSq] fail
    as well: the same point gets a minimum of [1], and on the axis [[0, 9]]
    the point [1] gets a minimum of [64], above its maximum of [1]; both
    come from the test [bh > a] of [MinDistanceSq(const vec&)]. *)
Lemma MinMax_point_counterexample :
  let wide := mkBound [mkRange 0 9] [10] in
  let b := mkBound [mkRange 1 3] [10] in
  (period_positive b = true /\ Contains b [2] = true /\
   ~ MaxDistanceSq_point b [2] == 0 /\
   ~ Fl.MaxDistanceSq_point Fl.rnd64 Fl.pow2 Fl.root1 b [2] == 0 /\
   ~ Fl.MaxDistanceSq_point Fl.rnd64 Fl.pow1 Fl.root2 b [2] == 0 /\
   ~ MinDistanceSq_point b [2] == 0) /\
  (period_positive wide = true /\
   ~ MinDistanceSq_point wide [1] <= MaxDistanceSq_point wide [1]).
Proof.
  cbv zeta. repeat split; try reflexivity; vm_compute; congruence.
Qed.

(** ** Case analysis for [min], [max] and [fabs] *)

Lemma min_cases (x y : Q) :
  (x < y /\ min x y == x) \/ (y <= x /\ min x y == y).
Proof. unfold min. apply Q.min_spec. Qed.

Lemma max_cases (x y : Q) :
  (x < y /\ max x y == y) \/ (y <= x /\ max x y == x).
Proof. unfold max. apply Q.max_spec. Qed.

Lemma fabs_cases (x : Q) :
  (0 <= x /\ fabs x == x) \/ (x < 0 /\ fabs x == - x).
Proof.
  unfold fabs. destruct (Qlt_le_dec x 0) as [H | H].
  - right. split; [exact H | apply Qabs_neg; lra].
  - left. split; [exact H | apply Qabs_pos; exact H].
Qed.

(** Replaces every [min], [max] and [fabs] by a fresh variable constrained
    by its case analysis, then splits the cases. *)
Ltac name_op t H :=
  let m := fresh "m" in
  pose proof H; set (m := t) in *; clearbody m.

Ltac abstract_ops :=
  repeat match goal with
         | |- context [min ?x ?y] => name_op (min x y) (min_cases x y)
         | |- context [max ?x ?y] => name_op (max x y) (max_cases x y)
         | |- context [fabs ?x] => name_op (fabs x) (fabs_cases x)
         | _ : context [min ?x ?y] |- _ =>
             name_op (min x y) (min_cases x y)
         | _ : context [max ?x ?y] |- _ =>
             name_op (max x y) (max_cases x y)
         | _ : context [fabs ?x] |- _ => name_op (fabs x) (fabs_cases x)
         end.

Ltac split_cases :=
  repeat match goal with
         | H : _ \/ _ |- _ => destruct H
         | H : _ /\ _ |- _ => destruct H
         end.

Lemma for_sum_scale (n : nat) (c : Q) (f : nat -> Q) :
  for_sum n (fun d => c * f d) == c * for_sum n f.
Proof.
  induction n as [| n IH].
  - unfold for_sum. simpl. ring.
  - rewrite !for_sum_S, IH. ring.
Qed.

(** ** C3: the range of bound-to-bound distances *)

(** C3 at one input: for [A = [1,3]] and [B = [7,9]] with period [10] the
    range is [(16, 64)], while the standalone queries give [4] and [25]. *)
Theorem RangeDistanceSq_bound_example :
  let A := mkBound [mkRange 1 3] [10] in
  let B := mkBound [mkRange 7 9] [10] in
  dim_ A = dim_ B /\ nonempty A = true /\ nonempty B = true /\
  returns (RangeDistanceSq_bound A B) (fun rg =>
    lo rg == 16 /\ hi rg == 64 /\
    returns (MinDistanceSq_bound A B) (fun m => m == 4 /\ ~ lo rg == m) /\
    returns (MaxDistanceSq_bound A B) (fun M => M == 25 /\ ~ hi rg == M)).
Proof.
  cbv zeta. repeat split; try reflexivity; vm_compute; congruence.
Qed.

(** ** C4: including a point in periodic coordinates *)

(** A point that lies outside the folded range of an axis is never
    included: the loop body leaves the range as it was. *)
Lemma Add_point_axis_outside (r : DRange) (o T : Q) :
  0 < T -> lo r <= hi r -> hi r - lo r < T ->
  hi r - lo r < wrap (o - lo r) T ->
  Add_point_axis r o T = r.
Proof.
  intros HT Hne Hw Hout.
  destruct (wrap_range (o - lo r) T HT) as [Ha0 HaT].
  pose proof (wrap_decomp (o - lo r) T) as Hdec.
  set (a := wrap (o - lo r) T) in *.
  set (k := Qfloor ((o - lo r) / T)) in *.
  assert (Eal : wrap (lo r - o) T == T - a).
  { rewrite (wrap_congr (lo r - o) (T - a) T (- k - 1) HT).
    - apply wrap_id; lra.
    - unfold Z.sub. rewrite !inject_Z_plus, !inject_Z_opp.
      change (inject_Z 1) with 1. lra. }
  assert (Eah : wrap (hi r - o) T == hi r - lo r - a + T).
  { rewrite (wrap_congr (hi r - o) (hi r - lo r - a + T) T (- k - 1) HT).
    - apply wrap_id; lra.
    - unfold Z.sub. rewrite !inject_Z_plus, !inject_Z_opp.
      change (inject_Z 1) with 1. lra. }
  unfold Add_point_axis. cbv zeta.
  change (hi r - o - floor ((hi r - o) / T) * T) with (wrap (hi r - o) T).
  change (lo r - o - floor ((lo r - o) / T) * T) with (wrap (lo r - o) T).
  destruct (Qltb (wrap (hi r - o) T) (wrap (lo r - o) T)) eqn:E;
    [| reflexivity].
  apply Qltb_true in E. rewrite Eal, Eah in E. lra.
Qed.

(** C4 at its own example: with period [10], adding the point [9] to the
    bound [[1, 2]] returns the bound [[1, 2]] unchanged; the result is
    neither [[9, 12]] nor the wrapped [[9, 2]], and does not contain [9]. *)
Theorem Add_point_example :
  returns (Add_point (mkBound [mkRange 1 2] [10]) [9] [10]) (fun b' =>
    dim_ b' = 1%nat /\
    lo (range_at b' 0) == 1 /\ hi (range_at b' 0) == 2 /\
    ~ lo (range_at b' 0) == 9 /\
    Contains b' [9] = false).
Proof.
  vm_compute. repeat split; congruence.
Qed.

(** ** C5: single-axis displacements *)

(** C5 at two inputs: with period [10], [MaxDelta] of [[5, 6]] against
    [[3/2, 2]] is [-13], and [MinDelta] of [[0, 8]] against [[3, 4]] is
    [6]; both exceed the half period [5] in magnitude. *)
Theorem Delta_examples :
  let box_width := 10 in
  let M := MaxDelta (mkBound [mkRange 5 6] [10])
                    (mkBound [mkRange (3 # 2) 2] [10]) box_width 0 in
  let m := MinDelta (mkBound [mkRange 0 8] [10])
                    (mkBound [mkRange 3 4] [10]) box_width 0 in
  0 < box_width /\
  M == - (13) /\ ~ fabs M <= box_width / 2 /\
  m == 6 /\ ~ fabs m <= box_width / 2.
Proof.
  cbv zeta. repeat split; try reflexivity; vm_compute; congruence.
Qed.

(** ** C6: configuring the period *)

(** C6, as stated, fails: a period vector with a zero and a negative
    component is stored, and the call returns normally. *)
Lemma SetBoxSize_counterexample :
  let b := mkBound [mkRange 1 3; mkRange 1 3; mkRange 1 3] [10; 10; 10] in
  let box := [10; 0; - (1)] in
  valid_period box = false /\
  SetBoxSize b box <> Fatal /\
  returns (SetBoxSize b box) (fun b' => GetBoxSize b' = box).
Proof.
  cbv zeta. repeat split. discriminate.
Qed.

(** C6 (amended): [SetBoxSize] stores any vector it is given, whatever the
    sign of its components, and leaves the extents alone; [GetBoxSize] then
    returns that vector. *)
Theorem SetBoxSize_stores (b : DHrectPeriodicBound) (box : vec) :
  returns (SetBoxSize b box) (fun b' =>
    GetBoxSize b' = box /\ bounds_ b' = bounds_ b).
Proof.
  unfold SetBoxSize, returns, GetBoxSize. cbn. split; reflexivity.
Qed.

Lemma MaxDistanceSq_bound_term_eq (r o : DRange) (T : Q) :
  MaxDistanceSq_bound_term r o T =
  fabs (max (min (wrap (hi r - lo o) T) (T / 2))
            (min (wrap (hi o - lo r) T) (T / 2))).
Proof. reflexivity. Qed.

(** ** C8: two squares on opposite sides of the wrap *)

(** C8: with period [[10, 10]], [A = {[1,3], [1,3]}] and
    [B = {[7,9], [7,9]}], [A.MinDistanceSq(B)] is the wrapped-path value
    [2 * (10 - 9 + 1)^2 = 8], strictly below [2 * 6^2 = 72], the value the
    unfolded [MidDistanceSq] gives for the same pair. *)
Theorem MinDistanceSq_bound_wrapped :
  let A := mkBound [mkRange 1 3; mkRange 1 3] [10; 10] in
  let B := mkBound [mkRange 7 9; mkRange 7 9] [10; 10] in
  returns (MinDistanceSq_bound A B) (fun v =>
    v == 2 * (10 - 9 + 1) ^ 2 /\ v == 8 /\ v < 2 * 6 ^ 2 /\
    returns (MidDistanceSq A B) (fun n => n == 2 * 6 ^ 2 /\ n == 72)).
Proof.
  cbv zeta. vm_compute. repeat split; congruence.
Qed.

(** ** C9: distance to the midpoint of another bound *)

(** C9 at one input: with period [10], [A = [1,3]] and [B = [7,9]], the
    midpoint of [B] is [8]; [A.MinToMidSq(B)] returns [25] while
    [A.MinDistanceSq] of that midpoint is [0]. *)
Theorem MinToMidSq_example :
  let A := mkBound [mkRange 1 3] [10] in
  let B := mkBound [mkRange 7 9] [10] in
  dim_ A = dim_ B /\ nonempty A = true /\ nonempty B = true /\
  at_ (CalculateMidpoint B) 0 == 8 /\
  MinDistanceSq_point A (CalculateMidpoint B) == 0 /\
  returns (MinToMidSq A B) (fun v =>
    v == 25 /\ ~ v == MinDistanceSq_point A (CalculateMidpoint B)).
Proof.
  cbv zeta. repeat split; try reflexivity. vm_compute. congruence.
Qed.

(** ** C10: containment looks only at the axes the point has *)

Lemma forallb_ext_on {A : Type} (f g : A -> bool) (l : list A) :
  (forall x, In x l -> f x = g x) -> forallb f l = forallb g l.
Proof.
  induction l as [| x l IH]; intros H; [reflexivity |].
  cbn [forallb]. rewrite (H x) by (left; reflexivity).
  rewrite IH by (intros y Hy; apply H; right; exact Hy). reflexivity.
Qed.

Lemma range_at_prefix (b b' : DHrectPeriodicBound) (m i : nat) :
  firstn m (bounds_ b') = firstn m (bounds_ b) ->
  (m <= dim_ b)%nat -> (m <= dim_ b')%nat -> (i < m)%nat ->
  range_at b' i = range_at b i.
Proof.
  intros Hpre Hm Hm' Hi. unfold range_at, dim_ in *.
  rewrite <- (firstn_skipn m (bounds_ b')), <- (firstn_skipn m (bounds_ b)).
  rewrite 2 app_nth1 by (rewrite length_firstn; lia).
  now rewrite Hpre.
Qed.

(** C10: for a point with fewer coordinates than the bound has axes,
    [Contains] is true exactly when each of the first [length point] ranges
    contains its coordinate; a bound that agrees on those axes gives the
    same answer, whatever its remaining extents. *)
Theorem Contains_prefix (b : DHrectPeriodicBound) (point : vec) :
  (length point < dim_ b)%nat ->
  (Contains b point = true <->
   forall i, (i < length point)%nat ->
     DRange_Contains (range_at b i) (at_ point i) = true) /\
  (forall b' : DHrectPeriodicBound,
     (length point <= dim_ b')%nat ->
     firstn (length point) (bounds_ b')
     = firstn (length point) (bounds_ b) ->
     Contains b' point = Contains b point).
Proof.
  intros Hm. split.
  - unfold Contains. rewrite forallb_forall. split.
    + intros H i Hi. apply H, in_seq. lia.
    + intros H i Hi. apply in_seq in Hi. apply H. lia.
  - intros b' Hm' Hpre. unfold Contains.
    apply forallb_ext_on. intros i Hi. apply in_seq in Hi.
    rewrite (range_at_prefix b b' (length point) i Hpre); [reflexivity | lia ..].
Qed.

Lemma Contains_prefix_witness :
  let b := mkBound [mkRange 1 3; mkRange 0 5; mkRange 4 2] [10; 10; 10] in
  let point := [2; 5] in
  (Contains b point = true <->
   forall i, (i < length point)%nat ->
     DRange_Contains (range_at b i) (at_ point i) = true) /\
  (forall b' : DHrectPeriodicBound,
     (length point <= dim_ b')%nat ->
     firstn (length point) (bounds_ b')
     = firstn (length point) (bounds_ b) ->
     Contains b' point = Contains b point).
Proof.
  cbv zeta.
  apply (Contains_prefix
           (mkBound [mkRange 1 3; mkRange 0 5; mkRange 4 2] [10; 10; 10])
           [2; 5]).
  unfold dim_. simpl. lia.
Defined.

(** * Further properties of the class *)

(** ** Bounds rebuilt axis by axis *)

Lemma dim_map_seq (f : nat -> DRange) (n : nat) (box : vec) :
  dim_ (mkBound (map f (seq 0 n)) box) = n.
Proof. unfold dim_. cbn [bounds_]. now rewrite length_map, length_seq. Qed.

Lemma range_at_map_seq (f : nat -> DRange) (n d : nat) (box : vec) :
  (d < n)%nat -> range_at (mkBound (map f (seq 0 n)) box) d = f d.
Proof.
  intros Hd. unfold range_at. cbn [bounds_].
  rewrite (nth_indep _ (mkRange 0 0) (f 0%nat))
    by (now rewrite length_map, length_seq).
  rewrite map_nth, seq_nth by exact Hd. reflexivity.
Qed.

Lemma map_seq_id (l : list DRange) (f : nat -> DRange) :
  (forall i, (i < length l)%nat -> f i = nth i l (mkRange 0 0)) ->
  map f (seq 0 (length l)) = l.
Proof.
  intros H. apply (nth_ext _ _ (mkRange 0 0) (mkRange 0 0)).
  - now rewrite length_map, length_seq.
  - intros i Hi. rewrite length_map, length_seq in Hi.
    rewrite (nth_indep _ (mkRange 0 0) (f 0%nat))
      by (now rewrite length_map, length_seq).
    rewrite map_nth, seq_nth by exact Hi. apply H, Hi.
Qed.

Lemma Contains_spec (b : DHrectPeriodicBound) (point : vec) :
  Contains b point = true <->
  forall i, (i < length point)%nat ->
    lo (range_at b i) <= at_ point i /\ at_ point i <= hi (range_at b i).
Proof.
  split.
  - intros H i Hi. now apply Contains_at.
  - intros H. unfold Contains. apply forallb_forall. intros i Hi.
    apply in_seq in Hi. destruct (H i) as [H1 H2]; [lia |].
    unfold DRange_Contains. apply andb_true_iff.
    split; now apply Qle_bool_iff.
Qed.

(** ** Widening a bound: [operator|=] *)

Lemma DRange_include_spec (r : DRange) (x q : Q) :
  lo (DRange_include r x) <= x /\ x <= hi (DRange_include r x) /\
  (lo r <= q -> lo (DRange_include r x) <= q) /\
  (q <= hi r -> q <= hi (DRange_include r x)).
Proof.
  unfold DRange_include. cbn [lo hi].
  destruct (Qltb x (lo r)) eqn:E1;
    [apply Qltb_true in E1 | apply Qltb_false in E1];
  (destruct (Qgtb x (hi r)) eqn:E2;
    [apply Qgtb_true in E2 | apply Qgtb_false in E2]);
  repeat split; intros; lra.
Qed.

Lemma DRange_union_spec (r o : DRange) (q : Q) :
  (lo r <= q -> lo (DRange_union r o) <= q) /\
  (lo o <= q -> lo (DRange_union r o) <= q) /\
  (q <= hi r -> q <= hi (DRange_union r o)) /\
  (q <= hi o -> q <= hi (DRange_union r o)).
Proof.
  unfold DRange_union. cbn [lo hi].
  destruct (Qltb (lo o) (lo r)) eqn:E1;
    [apply Qltb_true in E1 | apply Qltb_false in E1];
  (destruct (Qgtb (hi o) (hi r)) eqn:E2;
    [apply Qgtb_true in E2 | apply Qgtb_false in E2]);
  repeat split; intros; lra.
Qed.

(** X1: After [b |= v] the bound has the same dimension and period and
    contains [v]. *)
Theorem or_assign_vec_contains (b : DHrectPeriodicBound) (v : vec) :
  length v = dim_ b ->
  returns (operator_or_assign_vec b v) (fun b' =>
    dim_ b' = dim_ b /\ box_size__ b' = box_size__ b /\
    Contains b' v = true).
Proof.
  intros Hlen. unfold operator_or_assign_vec.
  rewrite Hlen, DEBUG_SAME_SIZE_refl. cbn [bind returns].
  split; [apply dim_map_seq | split; [reflexivity |]].
  apply Contains_spec. intros i Hi.
  rewrite range_at_map_seq by lia.
  destruct (DRange_include_spec (range_at b i) (at_ v i) 0) as (H1 & H2 & _).
  split; assumption.
Qed.

Lemma or_assign_vec_contains_witness :
  returns (operator_or_assign_vec
             (mkBound [mkRange 1 3; mkRange 5 4] [10; 10]) [7; 2])
    (fun b' =>
       dim_ b' = dim_ (mkBound [mkRange 1 3; mkRange 5 4] [10; 10]) /\
       box_size__ b' = [10; 10] /\
       Contains b' [7; 2] = true).
Proof.
  apply (or_assign_vec_contains
           (mkBound [mkRange 1 3; mkRange 5 4] [10; 10]) [7; 2]).
  reflexivity.
Defined.

(** X2: [b |= v] loses nothing: a point the bound contained before is still
    contained afterwards. *)
Theorem or_assign_vec_monotone (b : DHrectPeriodicBound) (v q : vec) :
  length v = dim_ b ->
  length q = dim_ b ->
  Contains b q = true ->
  returns (operator_or_assign_vec b v) (fun b' => Contains b' q = true).
Proof.
  intros Hlen Hq Hin. unfold operator_or_assign_vec.
  rewrite Hlen, DEBUG_SAME_SIZE_refl. cbn [bind returns].
  apply Contains_spec. intros i Hi.
  rewrite range_at_map_seq by lia.
  destruct (Contains_at b q i Hin Hi) as [Hlo Hhi].
  destruct (DRange_include_spec (range_at b i) (at_ v i) (at_ q i))
    as (_ & _ & H3 & H4).
  split; [apply H3, Hlo | apply H4, Hhi].
Qed.

Lemma or_assign_vec_monotone_witness :
  returns (operator_or_assign_vec
             (mkBound [mkRange 1 3; mkRange 0 4] [10; 10]) [7; 2])
    (fun b' => Contains b' [2; 4] = true).
Proof.
  apply (or_assign_vec_monotone
           (mkBound [mkRange 1 3; mkRange 0 4] [10; 10]) [7; 2] [2; 4]);
    reflexivity.
Defined.

(** X3: [b |= v] changes nothing when [b] already contains [v]. *)
Theorem or_assign_vec_absorbs (b : DHrectPeriodicBound) (v : vec) :
  length v = dim_ b ->
  Contains b v = true ->
  operator_or_assign_vec b v = Ok b.
Proof.
  intros Hlen Hin. unfold operator_or_assign_vec.
  rewrite Hlen, DEBUG_SAME_SIZE_refl. cbn [bind].
  destruct b as [bs box]. unfold dim_ in *. cbn [bounds_ box_size__] in *.
  f_equal. f_equal. apply map_seq_id. intros i Hi.
  assert (Hi' : (i < length v)%nat) by lia.
  destruct (Contains_at _ v i Hin Hi') as [Hlo Hhi].
  unfold range_at in *. cbn [bounds_] in *.
  destruct (nth i bs (mkRange 0 0)) as [l h]. cbn [lo hi] in *.
  unfold DRange_include. cbn [lo hi].
  apply Qltb_false in Hlo. apply Qgtb_false in Hhi.
  now rewrite Hlo, Hhi.
Qed.

Lemma or_assign_vec_absorbs_witness :
  operator_or_assign_vec (mkBound [mkRange 1 3; mkRange 0 4] [10; 10]) [3; 2]
  = Ok (mkBound [mkRange 1 3; mkRange 0 4] [10; 10]).
Proof.
  apply (or_assign_vec_absorbs
           (mkBound [mkRange 1 3; mkRange 0 4] [10; 10]) [3; 2]);
    reflexivity.
Defined.

(** X4: [b |= other] contains every point that [b] or [other] contained. *)
Theorem or_assign_bound_covers (b other : DHrectPeriodicBound) (q : vec) :
  dim_ other = dim_ b ->
  length q = dim_ b ->
  Contains b q = true \/ Contains other q = true ->
  returns (operator_or_assign_bound b other) (fun b' =>
    dim_ b' = dim_ b /\ Contains b' q = true).
Proof.
  intros Hdim Hq Hin. unfold operator_or_assign_bound.
  rewrite Hdim, DEBUG_SAME_SIZE_refl. cbn [bind returns].
  split; [apply dim_map_seq |].
  apply Contains_spec. intros i Hi.
  rewrite range_at_map_seq by lia.
  destruct (DRange_union_spec (range_at b i) (range_at other i) (at_ q i))
    as (H1 & H2 & H3 & H4).
  destruct Hin as [Hin | Hin];
    destruct (Contains_at _ q i Hin Hi) as [Hlo Hhi]; split; auto.
Qed.

Lemma or_assign_bound_covers_witness :
  returns (operator_or_assign_bound
             (mkBound [mkRange 1 3; mkRange 0 4] [10; 10])
             (mkBound [mkRange 5 8; mkRange 6 7] [10; 10]))
    (fun b' =>
       dim_ b' = dim_ (mkBound [mkRange 1 3; mkRange 0 4] [10; 10]) /\
       Contains b' [6; 7] = true).
Proof.
  apply (or_assign_bound_covers
           (mkBound [mkRange 1 3; mkRange 0 4] [10; 10])
           (mkBound [mkRange 5 8; mkRange 6 7] [10; 10]) [6; 7]);
    [reflexivity | reflexivity | right; reflexivity].
Defined.

(** ** The midpoint *)

(** X5: The midpoint of a bound with non-empty extents has the bound's
    dimension and is contained in it. *)
Theorem CalculateMidpoint_contained (b : DHrectPeriodicBound) :
  nonempty b = true ->
  length (CalculateMidpoint b) = dim_ b /\
  Contains b (CalculateMidpoint b) = true.
Proof.
  intros Hne.
  assert (Hlen : length (CalculateMidpoint b) = dim_ b)
    by (unfold CalculateMidpoint; now rewrite length_map, length_seq).
  split; [exact Hlen |].
  apply Contains_spec. intros i Hi. rewrite Hlen in Hi.
  unfold CalculateMidpoint. rewrite at_map_seq by exact Hi.
  pose proof (nonempty_at b i Hne Hi) as Hle.
  unfold DRange_mid. halves. split; lra.
Qed.

Lemma CalculateMidpoint_contained_witness :
  let b := mkBound [mkRange 1 3; mkRange 4 4] [10; 10] in
  length (CalculateMidpoint b) = dim_ b /\
  Contains b (CalculateMidpoint b) = true.
Proof.
  cbv zeta.
  apply (CalculateMidpoint_contained
           (mkBound [mkRange 1 3; mkRange 4 4] [10; 10])).
  reflexivity.
Defined.

(** ** Sums of squares that vanish *)

Lemma for_sum_zero_iff (n : nat) (f : nat -> Q) :
  (forall d, (d < n)%nat -> 0 <= f d) ->
  (for_sum n f == 0 <-> forall d, (d < n)%nat -> f d == 0).
Proof.
  induction n as [| n IH]; intros Hpos.
  - split; [intros _ d Hd; lia | intros _; reflexivity].
  - rewrite for_sum_S.
    assert (H1 : 0 <= for_sum n f)
      by (apply for_sum_nonneg; auto with arith).
    assert (H2 : 0 <= f n) by (apply Hpos; lia).
    assert (IH' := IH (fun d Hd => Hpos d (Nat.lt_lt_succ_r _ _ Hd))).
    split.
    + intros Hz d Hd. destruct (Nat.eq_dec d n) as [-> | Hne]; [lra |].
      apply IH'; [lra | lia].
    + intros Hall.
      assert (E1 : for_sum n f == 0)
        by (apply IH'; intros d Hd; apply Hall; lia).
      assert (E2 : f n == 0) by (apply Hall; lia).
      lra.
Qed.

Lemma pow_t_zero (v : Q) : pow_t v == 0 <-> v == 0.
Proof.
  rewrite pow_t_sq. split; intros H.
  - destruct (Qmult_integral _ _ H); assumption.
  - rewrite H. reflexivity.
Qed.

Lemma quarter_eq (x : Q) : x / 4 == x * (1 # 4).
Proof. reflexivity. Qed.

(** A rooted and quartered sum of per-axis powers is zero exactly when
    every per-axis value is. *)
Lemma quartered_sum_zero (n : nat) (t : nat -> Q) :
  root_t (for_sum n (fun d => pow_t (t d))) / 4 == 0 <->
  forall d, (d < n)%nat -> t d == 0.
Proof.
  rewrite quarter_eq, root_t_id.
  assert (Hz : for_sum n (fun d => pow_t (t d)) == 0 <->
               forall d, (d < n)%nat -> pow_t (t d) == 0)
    by (apply for_sum_zero_iff; intros; apply pow_t_nonneg).
  split.
  - intros H d Hd. apply pow_t_zero. apply Hz; [lra | exact Hd].
  - intros H.
    assert (E : for_sum n (fun d => pow_t (t d)) == 0).
    { apply Hz. intros d Hd. apply pow_t_zero, H, Hd. }
    lra.
Qed.

(** ** Midpoint distances *)

(** X6: [MidDistanceSq] is the squared distance between the two midpoints, so
    it is zero exactly when they coincide; it is symmetric in its two
    bounds and never reads the period. *)
Theorem MidDistanceSq_midpoints (A B : DHrectPeriodicBound) :
  dim_ A = dim_ B ->
  returns (MidDistanceSq A B) (fun v =>
    v == for_sum (dim_ A) (fun d =>
           pow_t (at_ (CalculateMidpoint A) d - at_ (CalculateMidpoint B) d))
    /\ (v == 0 <->
        forall d, (d < dim_ A)%nat ->
          at_ (CalculateMidpoint A) d == at_ (CalculateMidpoint B) d)
    /\ returns (MidDistanceSq B A) (fun v' => v == v')).
Proof.
  intros Hdim. unfold MidDistanceSq.
  rewrite <- Hdim, !DEBUG_SAME_SIZE_refl. cbn [bind returns].
  assert (Hmid : forall d, (d < dim_ A)%nat ->
            at_ (CalculateMidpoint A) d - at_ (CalculateMidpoint B) d
            == (hi (range_at A d) + lo (range_at A d)
                - hi (range_at B d) - lo (range_at B d)) * (1 # 2)).
  { intros d Hd. unfold CalculateMidpoint.
    rewrite 2 at_map_seq by lia. unfold DRange_mid. halves. ring. }
  split; [| split].
  - rewrite quarter_eq, root_t_id.
    set (F := fun d => pow_t (fabs (hi (range_at A d) + lo (range_at A d)
                                    - hi (range_at B d) - lo (range_at B d)))).
    set (G := fun d => pow_t (at_ (CalculateMidpoint A) d
                              - at_ (CalculateMidpoint B) d)).
    assert (E : for_sum (dim_ A) F == 4 * for_sum (dim_ A) G).
    { rewrite <- for_sum_scale. apply for_sum_ext. intros d Hd.
      unfold F, G. rewrite (Hmid d Hd), pow_t_fabs, 2 pow_t_sq. ring. }
    lra.
  - rewrite quartered_sum_zero. split; intros H d Hd.
    + specialize (H d Hd). specialize (Hmid d Hd).
      unfold fabs in H.
      assert (E : hi (range_at A d) + lo (range_at A d)
                  - hi (range_at B d) - lo (range_at B d) == 0).
      { revert H. apply Qabs_case; intros; lra. }
      lra.
    + specialize (H d Hd). specialize (Hmid d Hd).
      assert (E : hi (range_at A d) + lo (range_at A d)
                  - hi (range_at B d) - lo (range_at B d) == 0) by lra.
      unfold fabs. rewrite E. reflexivity.
  - apply Qmult_comp; [| reflexivity].
    apply root_t_Proper, for_sum_ext. intros d Hd.
    rewrite 2 pow_t_fabs, 2 pow_t_sq. ring.
Qed.

Lemma MidDistanceSq_midpoints_witness :
  let A := mkBound [mkRange 1 3; mkRange 0 4] [10; 10] in
  let B := mkBound [mkRange 7 9; mkRange 1 3] [10; 10] in
  returns (MidDistanceSq A B) (fun v =>
    v == for_sum (dim_ A) (fun d =>
           pow_t (at_ (CalculateMidpoint A) d - at_ (CalculateMidpoint B) d))
    /\ (v == 0 <->
        forall d, (d < dim_ A)%nat ->
          at_ (CalculateMidpoint A) d == at_ (CalculateMidpoint B) d)
    /\ returns (MidDistanceSq B A) (fun v' => v == v')).
Proof.
  cbv zeta.
  apply (MidDistanceSq_midpoints
           (mkBound [mkRange 1 3; mkRange 0 4] [10; 10])
           (mkBound [mkRange 7 9; mkRange 1 3] [10; 10])).
  reflexivity.
Defined.

(** X7: [MinToMidSq(other)] is zero exactly when the bound contains the
    midpoint of [other]. *)
Theorem MinToMidSq_zero (A B : DHrectPeriodicBound) :
  dim_ A = dim_ B ->
  returns (MinToMidSq A B) (fun v =>
    v == 0 <-> Contains A (CalculateMidpoint B) = true).
Proof.
  intros Hdim. unfold MinToMidSq.
  rewrite <- Hdim, DEBUG_SAME_SIZE_refl. cbn [bind returns].
  assert (Hlen : length (CalculateMidpoint B) = dim_ A).
  { unfold CalculateMidpoint. rewrite length_map, length_seq. lia. }
  rewrite quartered_sum_zero, Contains_spec, Hlen.
  split; intros H d Hd; specialize (H d Hd);
    unfold CalculateMidpoint in *;
    rewrite at_map_seq in * by lia;
    unfold MinToMidSq_term in *; cbv zeta in *;
    set (m := DRange_mid (range_at B d)) in *; clearbody m;
    abstract_ops; split_cases; try split; lra.
Qed.

Lemma MinToMidSq_zero_witness :
  let A := mkBound [mkRange 1 9; mkRange 0 4] [10; 10] in
  let B := mkBound [mkRange 7 9; mkRange 1 3] [10; 10] in
  returns (MinToMidSq A B) (fun v =>
    v == 0 <-> Contains A (CalculateMidpoint B) = true).
Proof.
  cbv zeta.
  apply (MinToMidSq_zero
           (mkBound [mkRange 1 9; mkRange 0 4] [10; 10])
           (mkBound [mkRange 7 9; mkRange 1 3] [10; 10])).
  reflexivity.
Defined.

(** ** The minimax distance *)

(** X8: [MinimaxDistanceSq(other)] is zero exactly when, on every axis, the
    range of [other] lies within the range of the bound. *)
Theorem MinimaxDistanceSq_zero (A B : DHrectPeriodicBound) :
  dim_ A = dim_ B ->
  returns (MinimaxDistanceSq A B) (fun v =>
    0 <= v /\
    (v == 0 <->
     forall d, (d < dim_ A)%nat ->
       lo (range_at A d) <= lo (range_at B d) /\
       hi (range_at B d) <= hi (range_at A d))).
Proof.
  intros Hdim. unfold MinimaxDistanceSq.
  rewrite <- Hdim, DEBUG_SAME_SIZE_refl. cbn [bind returns].
  split.
  - rewrite quarter_eq, root_t_id.
    assert (0 <= for_sum (dim_ A) (fun d =>
              pow_t (MinimaxDistanceSq_term (range_at A d) (range_at B d))))
      by (apply for_sum_nonneg; intros; apply pow_t_nonneg).
    lra.
  - rewrite quartered_sum_zero.
    split; intros H d Hd; specialize (H d Hd);
      unfold MinimaxDistanceSq_term in *; cbv zeta in *;
      abstract_ops; split_cases; try split; lra.
Qed.

Lemma MinimaxDistanceSq_zero_witness :
  let A := mkBound [mkRange 1 9; mkRange 0 4] [10; 10] in
  let B := mkBound [mkRange 7 9; mkRange 1 3] [10; 10] in
  returns (MinimaxDistanceSq A B) (fun v =>
    0 <= v /\
    (v == 0 <->
     forall d, (d < dim_ A)%nat ->
       lo (range_at A d) <= lo (range_at B d) /\
       hi (range_at B d) <= hi (range_at A d))).
Proof.
  cbv zeta.
  apply (MinimaxDistanceSq_zero
           (mkBound [mkRange 1 9; mkRange 0 4] [10; 10])
           (mkBound [mkRange 7 9; mkRange 1 3] [10; 10])).
  reflexivity.
Defined.

(** ** Bound-to-bound distances *)

#[global] Instance max_Proper : Proper (Qeq ==> Qeq ==> Qeq) max.
Proof. intros x x' Hx y y' Hy. unfold max. now rewrite Hx, Hy. Qed.

#[global] Instance fabs_Proper : Proper (Qeq ==> Qeq) fabs.
Proof. intros x x' Hx. unfold fabs. now rewrite Hx. Qed.

Lemma min_comm (x y : Q) : min x y == min y x.
Proof. unfold min. apply Q.min_comm. Qed.

Lemma max_comm (x y : Q) : max x y == max y x.
Proof. unfold max. apply Q.max_comm. Qed.

Lemma MinDistanceSq_bound_term_sym (r o : DRange) (T : Q) :
  MinDistanceSq_bound_term r o T == MinDistanceSq_bound_term o r T.
Proof.
  unfold MinDistanceSq_bound_term. cbv zeta.
  rewrite (min_comm (lo r - hi o) (lo o - hi r)).
  rewrite (min_comm (lo r - hi o) (lo o - hi r + T)).
  rewrite (min_comm (lo r - hi o + T) (lo o - hi r)).
  destruct (Qgtb (hi r) (lo r)), (Qgtb (hi o) (lo o));
    cbn [orb andb b2q]; ring.
Qed.

(** X9: With one period vector for both bounds, [MinDistanceSq] does not
    depend on which bound is the receiver. *)
Theorem MinDistanceSq_bound_sym (A B : DHrectPeriodicBound) :
  dim_ A = dim_ B ->
  box_size__ A = box_size__ B ->
  returns (MinDistanceSq_bound A B) (fun v =>
    returns (MinDistanceSq_bound B A) (fun v' => v == v')).
Proof.
  intros Hdim Hbox. unfold MinDistanceSq_bound.
  rewrite <- Hdim, <- Hbox, !DEBUG_SAME_SIZE_refl. cbn [bind returns].
  apply Qmult_comp; [| reflexivity].
  apply root_t_Proper, for_sum_ext. intros d Hd.
  apply pow_t_Proper, MinDistanceSq_bound_term_sym.
Qed.

Lemma MinDistanceSq_bound_sym_witness :
  returns (MinDistanceSq_bound
             (mkBound [mkRange 1 3; mkRange 0 4] [10; 10])
             (mkBound [mkRange 7 9; mkRange 6 8] [10; 10]))
    (fun v =>
       returns (MinDistanceSq_bound
                  (mkBound [mkRange 7 9; mkRange 6 8] [10; 10])
                  (mkBound [mkRange 1 3; mkRange 0 4] [10; 10]))
         (fun v' => v == v')).
Proof.
  apply (MinDistanceSq_bound_sym
           (mkBound [mkRange 1 3; mkRange 0 4] [10; 10])
           (mkBound [mkRange 7 9; mkRange 6 8] [10; 10]));
    reflexivity.
Defined.

Lemma MinDistanceSq_bound_term_overlap (r o : DRange) (T : Q) :
  lo o <= hi r -> lo r <= hi o -> MinDistanceSq_bound_term r o T == 0.
Proof.
  intros H1 H2. unfold MinDistanceSq_bound_term. cbv zeta.
  destruct (Qgtb (hi r) (lo r)), (Qgtb (hi o) (lo o));
    cbn [orb andb b2q]; abstract_ops; split_cases; lra.
Qed.

(** X10: Two bounds that overlap on every axis are at [MinDistanceSq] zero,
    whatever the period. *)
Theorem MinDistanceSq_bound_overlap (A B : DHrectPeriodicBound) :
  dim_ A = dim_ B ->
  overlapping A B = true ->
  returns (MinDistanceSq_bound A B) (fun v => v == 0).
Proof.
  intros Hdim Hov. unfold MinDistanceSq_bound.
  rewrite <- Hdim, DEBUG_SAME_SIZE_refl. cbn [bind returns].
  apply quartered_sum_zero. intros d Hd.
  unfold overlapping in Hov. rewrite all_axes_spec in Hov.
  specialize (Hov d Hd). apply andb_true_iff in Hov.
  destruct Hov as [H1 H2]. apply Qle_bool_iff in H1, H2.
  now apply MinDistanceSq_bound_term_overlap.
Qed.

Lemma MinDistanceSq_bound_overlap_witness :
  returns (MinDistanceSq_bound
             (mkBound [mkRange 1 5; mkRange 0 4] [10; 10])
             (mkBound [mkRange 4 9; mkRange 4 8] [10; 10]))
    (fun v => v == 0).
Proof.
  apply (MinDistanceSq_bound_overlap
           (mkBound [mkRange 1 5; mkRange 0 4] [10; 10])
           (mkBound [mkRange 4 9; mkRange 4 8] [10; 10]));
    reflexivity.
Defined.

Lemma MinDistanceSq_bound_term_apart (r o : DRange) (T : Q) :
  lo r < hi r -> hi r <= lo o -> lo o < hi o -> hi o - lo r <= T ->
  MinDistanceSq_bound_term r o T
  == 2 * min (lo o - hi r) (lo r + T - hi o).
Proof.
  intros H1 H2 H3 H4. unfold MinDistanceSq_bound_term. cbv zeta.
  apply Qgtb_true in H1. apply Qgtb_true in H3. rewrite H1, H3.
  apply Qgtb_true in H1. apply Qgtb_true in H3.
  cbn [orb andb b2q].
  assert (E : lo r - hi o + T == lo r + T - hi o) by ring.
  rewrite E. abstract_ops; split_cases; lra.
Qed.

(** X11: For two bounds of positive width that fit, one after the other, in one
    period on every axis, [MinDistanceSq] aggregates per axis the smaller
    of the direct gap and the gap through the wrap. *)
Theorem MinDistanceSq_bound_apart (A B : DHrectPeriodicBound) :
  dim_ A = dim_ B ->
  apart_within_period A B = true ->
  returns (MinDistanceSq_bound A B) (fun v =>
    v == for_sum (dim_ A) (fun d =>
           pow_t (min (lo (range_at B d) - hi (range_at A d))
                      (lo (range_at A d) + at_ (box_size__ A) d
                       - hi (range_at B d))))).
Proof.
  intros Hdim Hap. unfold MinDistanceSq_bound.
  rewrite <- Hdim, DEBUG_SAME_SIZE_refl. cbn [bind returns].
  rewrite quarter_eq, root_t_id.
  set (F := fun d => pow_t (MinDistanceSq_bound_term (range_at A d)
                              (range_at B d) (at_ (box_size__ A) d))).
  set (G := fun d => pow_t (min (lo (range_at B d) - hi (range_at A d))
                                (lo (range_at A d) + at_ (box_size__ A) d
                                 - hi (range_at B d)))).
  assert (E : for_sum (dim_ A) F == 4 * for_sum (dim_ A) G).
  { rewrite <- for_sum_scale. apply for_sum_ext. intros d Hd.
    unfold apart_within_period in Hap. rewrite all_axes_spec in Hap.
    specialize (Hap d Hd). rewrite !andb_true_iff in Hap.
    destruct Hap as [[[H1 H2] H3] H4].
    apply Qltb_true in H1, H3. apply Qle_bool_iff in H2, H4.
    unfold F, G.
    rewrite (MinDistanceSq_bound_term_apart _ _ _ H1 H2 H3 H4).
    rewrite 2 pow_t_sq. ring. }
  lra.
Qed.

Lemma MinDistanceSq_bound_apart_witness :
  let A := mkBound [mkRange 1 3; mkRange 0 4] [10; 12] in
  let B := mkBound [mkRange 7 9; mkRange 5 6] [10; 12] in
  returns (MinDistanceSq_bound A B) (fun v =>
    v == for_sum (dim_ A) (fun d =>
           pow_t (min (lo (range_at B d) - hi (range_at A d))
                      (lo (range_at A d) + at_ (box_size__ A) d
                       - hi (range_at B d))))).
Proof.
  cbv zeta.
  apply (MinDistanceSq_bound_apart
           (mkBound [mkRange 1 3; mkRange 0 4] [10; 12])
           (mkBound [mkRange 7 9; mkRange 5 6] [10; 12]));
    reflexivity.
Defined.

(** X12: With one period vector for both bounds, [MaxDistanceSq] does not
    depend on which bound is the receiver. *)
Theorem MaxDistanceSq_bound_sym (A B : DHrectPeriodicBound) :
  dim_ A = dim_ B ->
  box_size__ A = box_size__ B ->
  returns (MaxDistanceSq_bound A B) (fun v =>
    returns (MaxDistanceSq_bound B A) (fun v' => v == v')).
Proof.
  intros Hdim Hbox. unfold MaxDistanceSq_bound.
  rewrite <- Hdim, <- Hbox, !DEBUG_SAME_SIZE_refl. cbn [bind returns].
  apply root_t_Proper, for_sum_ext. intros d Hd.
  apply pow_t_Proper. rewrite 2 MaxDistanceSq_bound_term_eq.
  apply fabs_Proper, max_comm.
Qed.

Lemma MaxDistanceSq_bound_sym_witness :
  returns (MaxDistanceSq_bound
             (mkBound [mkRange 1 3; mkRange 0 4] [10; 10])
             (mkBound [mkRange 7 9; mkRange 6 8] [10; 10]))
    (fun v =>
       returns (MaxDistanceSq_bound
                  (mkBound [mkRange 7 9; mkRange 6 8] [10; 10])
                  (mkBound [mkRange 1 3; mkRange 0 4] [10; 10]))
         (fun v' => v == v')).
Proof.
  apply (MaxDistanceSq_bound_sym
           (mkBound [mkRange 1 3; mkRange 0 4] [10; 10])
           (mkBound [mkRange 7 9; mkRange 6 8] [10; 10]));
    reflexivity.
Defined.

(** ** The range of distances to a point *)

Lemma RangeDistanceSq_point_term_spec (r : DRange) (p : Q) :
  lo r <= hi r -> p <= lo r \/ hi r <= p ->
  let t := RangeDistanceSq_point_term r p in
  fst t == max (lo r - p) (p - hi r) /\
  snd t == max (hi r - p) (p - lo r) /\
  0 <= fst t /\ fst t <= snd t.
Proof.
  intros Hr Hout. unfold RangeDistanceSq_point_term. cbv zeta.
  destruct (Qgeb (lo r - p) 0) eqn:E;
    [apply Qgeb_true in E | apply Qgeb_false in E]; cbn [fst snd];
    abstract_ops; split_cases; repeat split; lra.
Qed.

(** X15: For a point that on no axis lies strictly inside the bound,
    [RangeDistanceSq] returns [(lo, hi)] with [0 <= lo <= hi]: per axis the
    distance to the nearer end and the distance to the farther end, measured
    without periodic folding. *)
Theorem RangeDistanceSq_point_spec (b : DHrectPeriodicBound) (p : vec) :
  length p = dim_ b ->
  not_inside b p = true ->
  returns (RangeDistanceSq_point b p) (fun rg =>
    0 <= lo rg /\ lo rg <= hi rg /\
    lo rg == for_sum (dim_ b) (fun d =>
               pow_t (max (lo (range_at b d) - at_ p d)
                          (at_ p d - hi (range_at b d)))) /\
    hi rg == for_sum (dim_ b) (fun d =>
               pow_t (max (hi (range_at b d) - at_ p d)
                          (at_ p d - lo (range_at b d))))).
Proof.
  intros Hlen Hout.
  assert (Hax : forall d, (d < dim_ b)%nat ->
            lo (range_at b d) <= hi (range_at b d) /\
            (at_ p d <= lo (range_at b d) \/ hi (range_at b d) <= at_ p d)).
  { intros d Hd. unfold not_inside in Hout. rewrite all_axes_spec in Hout.
    specialize (Hout d Hd). apply andb_true_iff in Hout.
    destruct Hout as [H1 H2]. apply Qle_bool_iff in H1.
    apply orb_true_iff in H2.
    split; [exact H1 |].
    destruct H2 as [H2 | H2]; apply Qle_bool_iff in H2; auto. }
  unfold RangeDistanceSq_point.
  rewrite Hlen, DEBUG_SAME_SIZE_refl. cbn [bind returns lo hi].
  rewrite !root_t_id.
  repeat split.
  - apply for_sum_nonneg. intros; apply pow_t_nonneg.
  - apply for_sum_le. intros d Hd. destruct (Hax d Hd) as [Hr Ho].
    destruct (RangeDistanceSq_point_term_spec _ _ Hr Ho) as (_ & _ & H0 & Hle).
    apply pow_t_le; assumption.
  - apply for_sum_ext. intros d Hd. destruct (Hax d Hd) as [Hr Ho].
    destruct (RangeDistanceSq_point_term_spec _ _ Hr Ho) as (El & _).
    apply pow_t_Proper, El.
  - apply for_sum_ext. intros d Hd. destruct (Hax d Hd) as [Hr Ho].
    destruct (RangeDistanceSq_point_term_spec _ _ Hr Ho) as (_ & Eh & _).
    apply pow_t_Proper, Eh.
Qed.

Lemma RangeDistanceSq_point_spec_witness :
  let b := mkBound [mkRange 1 3; mkRange 0 4] [10; 10] in
  let p := [7; 0] in
  returns (RangeDistanceSq_point b p) (fun rg =>
    0 <= lo rg /\ lo rg <= hi rg /\
    lo rg == for_sum (dim_ b) (fun d =>
               pow_t (max (lo (range_at b d) - at_ p d)
                          (at_ p d - hi (range_at b d)))) /\
    hi rg == for_sum (dim_ b) (fun d =>
               pow_t (max (hi (range_at b d) - at_ p d)
                          (at_ p d - lo (range_at b d))))).
Proof.
  cbv zeta.
  apply (RangeDistanceSq_point_spec
           (mkBound [mkRange 1 3; mkRange 0 4] [10; 10]) [7; 0]);
    reflexivity.
Defined.

(** ** Including a point in periodic coordinates *)

Lemma Qltb_irrefl (x : Q) : Qltb x x = false.
Proof. apply Qltb_false. apply Qle_refl. Qed.

(** X17: On an initialised bound, a point whose every coordinate folds to a
    place beyond the range of its axis is not included: [Add] returns the
    bound as it was. *)
Theorem Add_point_outside_unchanged
    (b : DHrectPeriodicBound) (other size : vec) :
  length other = dim_ b ->
  Qltb (hi (range_at b 0)) 0 = false ->
  outside_folded b other size = true ->
  Add_point b other size = Ok b.
Proof.
  intros Hlen Hinit Hout. unfold Add_point.
  rewrite Hlen, DEBUG_SAME_SIZE_refl, Hinit. cbn [bind].
  destruct b as [bs box]. unfold dim_ in *. cbn [bounds_ box_size__] in *.
  f_equal. f_equal. apply map_seq_id. intros i Hi.
  unfold outside_folded in Hout. rewrite all_axes_spec in Hout.
  specialize (Hout i Hi). rewrite !andb_true_iff in Hout.
  destruct Hout as [[[H1 H2] H3] H4].
  apply Qltb_true in H1, H3, H4. apply Qle_bool_iff in H2.
  unfold range_at in *. cbn [bounds_] in *.
  now apply Add_point_axis_outside.
Qed.

Lemma Add_point_outside_unchanged_witness :
  Add_point (mkBound [mkRange 1 2; mkRange 0 3] [10; 10]) [9; 5] [10; 10]
  = Ok (mkBound [mkRange 1 2; mkRange 0 3] [10; 10]).
Proof.
  apply (Add_point_outside_unchanged
           (mkBound [mkRange 1 2; mkRange 0 3] [10; 10]) [9; 5] [10; 10]);
    reflexivity.
Defined.

(** X18: On a bound whose first axis has [hi < 0] and whose every axis is empty
    around the point, [Add] returns the bound reduced to that point, which
    it then contains. *)
Theorem Add_point_empty (b : DHrectPeriodicBound) (other size : vec) :
  length other = dim_ b ->
  Qltb (hi (range_at b 0)) 0 = true ->
  empty_around b other = true ->
  returns (Add_point b other size) (fun b' =>
    dim_ b' = dim_ b /\
    (forall d, (d < dim_ b)%nat ->
       range_at b' d = mkRange (at_ other d) (at_ other d)) /\
    Contains b' other = true).
Proof.
  intros Hlen Hneg Hemp. unfold Add_point.
  rewrite Hlen, DEBUG_SAME_SIZE_refl, Hneg. cbn [bind returns].
  assert (Hax : forall d, (d < dim_ b)%nat ->
    range_at
      (mkBound
         (map (fun i =>
                 Add_point_axis
                   (range_at
                      (mkBound
                         (map (fun i0 =>
                                 DRange_include (range_at b i0) (at_ other i0))
                              (seq 0 (dim_ b)))
                         (box_size__ b)) i)
                   (at_ other i) (at_ size i))
              (seq 0 (dim_ b)))
         (box_size__ b)) d
    = mkRange (at_ other d) (at_ other d)).
  { intros d Hd. rewrite 2 range_at_map_seq by exact Hd.
    unfold empty_around in Hemp. rewrite all_axes_spec in Hemp.
    specialize (Hemp d Hd). apply andb_true_iff in Hemp.
    destruct Hemp as [H1 H2].
    unfold DRange_include, Qgtb. rewrite H1, H2.
    unfold Add_point_axis. cbn [lo hi]. cbv zeta.
    now rewrite Qltb_irrefl. }
  split; [apply dim_map_seq | split; [exact Hax |]].
  apply Contains_spec. intros i Hi. rewrite Hlen in Hi.
  rewrite (Hax i Hi). cbn [lo hi]. split; apply Qle_refl.
Qed.

Lemma Add_point_empty_witness :
  let b := mkBound [mkRange 100 (-100); mkRange 100 (-100)] [10; 10] in
  returns (Add_point b [9; 5] [10; 10]) (fun b' =>
    dim_ b' = dim_ b /\
    (forall d, (d < dim_ b)%nat ->
       range_at b' d = mkRange (at_ [9; 5] d) (at_ [9; 5] d)) /\
    Contains b' [9; 5] = true).
Proof.
  cbv zeta.
  apply (Add_point_empty
           (mkBound [mkRange 100 (-100); mkRange 100 (-100)] [10; 10])
           [9; 5] [10; 10]);
    reflexivity.
Defined.

(** ** Including a bound in periodic coordinates *)

Lemma Add_bound_axis_eq (r o : DRange) (size : Q) :
  Add_bound_axis r o size =
  let ah := wrap (hi r - lo r) size in
  let bh := wrap (hi o - lo r) size in
  let bl := wrap (lo o - lo r) size in
  let r1 :=
    if (Qgtb bh ah && (Qltb bh bl || Qgtb ah bl))
       || (Qgeb bh bl && Qgtb bl ah && Qltb bh (ah - bl + size))
    then mkRange (lo r) (hi o) else r in
  let r2 :=
    if Qgtb bl ah && (Qgtb bl bh || Qgeb bh (ah - bl + size))
    then mkRange (lo o) (hi r1) else r1 in
  if Qgtb ah bl && Qgtb bl bh then mkRange 0 size else r2.
Proof. reflexivity. Qed.

Lemma Add_bound_axis_encloses (r o : DRange) (size : Q) :
  0 < size -> lo r <= lo o -> lo o <= hi o -> hi o <= hi r ->
  hi r - lo r < size ->
  Add_bound_axis r o size = r.
Proof.
  intros HT H1 H2 H3 Hw. rewrite Add_bound_axis_eq. cbv zeta.
  assert (Ea : wrap (hi r - lo r) size == hi r - lo r)
    by (apply wrap_id; lra).
  assert (Eb : wrap (hi o - lo r) size == hi o - lo r)
    by (apply wrap_id; lra).
  assert (Ec : wrap (lo o - lo r) size == lo o - lo r)
    by (apply wrap_id; lra).
  assert (F1 : Qgtb (wrap (hi o - lo r) size) (wrap (hi r - lo r) size)
               = false) by (apply Qgtb_false; rewrite Ea, Eb; lra).
  assert (F2 : Qgtb (wrap (lo o - lo r) size) (wrap (hi r - lo r) size)
               = false) by (apply Qgtb_false; rewrite Ea, Ec; lra).
  assert (F3 : Qgtb (wrap (lo o - lo r) size) (wrap (hi o - lo r) size)
               = false) by (apply Qgtb_false; rewrite Eb, Ec; lra).
  rewrite F1, F2, F3, !andb_false_r. reflexivity.
Qed.

Lemma Add_bound_axis_follows (r o : DRange) (size : Q) :
  lo r <= hi r -> hi r < lo o -> lo o <= hi o -> hi o < lo r + size ->
  Add_bound_axis r o size =
  if Qltb (hi o - hi r) (lo r + size - lo o)
  then mkRange (lo r) (hi o) else mkRange (lo o) (hi r).
Proof.
  intros H1 H2 H3 H4. rewrite Add_bound_axis_eq. cbv zeta.
  assert (Ea : wrap (hi r - lo r) size == hi r - lo r)
    by (apply wrap_id; lra).
  assert (Eb : wrap (hi o - lo r) size == hi o - lo r)
    by (apply wrap_id; lra).
  assert (Ec : wrap (lo o - lo r) size == lo o - lo r)
    by (apply wrap_id; lra).
  set (ah := wrap (hi r - lo r) size) in *.
  set (bh := wrap (hi o - lo r) size) in *.
  set (bl := wrap (lo o - lo r) size) in *.
  assert (F1 : Qgtb bh ah = true) by (apply Qgtb_true; lra).
  assert (F2 : Qltb bh bl = false) by (apply Qltb_false; lra).
  assert (F3 : Qgtb ah bl = false) by (apply Qgtb_false; lra).
  assert (F4 : Qgeb bh bl = true) by (apply Qgeb_true; lra).
  assert (F5 : Qgtb bl ah = true) by (apply Qgtb_true; lra).
  assert (F6 : Qgtb bl bh = false) by (apply Qgtb_false; lra).
  rewrite F1, F2, F3, F4, F5, F6. cbn [andb orb].
  destruct (Qltb (hi o - hi r) (lo r + size - lo o)) eqn:E;
    [apply Qltb_true in E | apply Qltb_false in E].
  - assert (F7 : Qltb bh (ah - bl + size) = true)
      by (apply Qltb_true; lra).
    assert (F8 : Qgeb bh (ah - bl + size) = false)
      by (apply Qgeb_false; lra).
    rewrite F7, F8. reflexivity.
  - assert (F7 : Qltb bh (ah - bl + size) = false)
      by (apply Qltb_false; lra).
    assert (F8 : Qgeb bh (ah - bl + size) = true)
      by (apply Qgeb_true; lra).
    rewrite F7, F8. reflexivity.
Qed.

(** X19: [Add] of a bound that already lies within the receiver, axis by axis,
    returns the receiver unchanged. *)
Theorem Add_bound_encloses (b other : DHrectPeriodicBound) (size : vec) :
  encloses b other size = true ->
  Add_bound b other size = b.
Proof.
  intros Henc.
  assert (Hax : forall d, (d < dim_ b)%nat ->
            0 < at_ size d /\
            lo (range_at b d) <= lo (range_at other d) /\
            lo (range_at other d) <= hi (range_at other d) /\
            hi (range_at other d) <= hi (range_at b d) /\
            hi (range_at b d) - lo (range_at b d) < at_ size d).
  { intros d Hd. unfold encloses in Henc. rewrite all_axes_spec in Henc.
    specialize (Henc d Hd). rewrite !andb_true_iff in Henc.
    destruct Henc as [[[[H1 H2] H3] H4] H5].
    apply Qltb_true in H1, H5. apply Qle_bool_iff in H2, H3, H4.
    repeat split; assumption. }
  unfold Add_bound.
  assert (E1 : (if Qltb (hi (range_at b 0)) 0
                then map (fun i => DRange_union (range_at b i)
                                                (range_at other i))
                         (seq 0 (dim_ b))
                else bounds_ b) = bounds_ b).
  { destruct (Qltb (hi (range_at b 0)) 0); [| reflexivity].
    apply map_seq_id. intros i Hi.
    destruct (Hax i Hi) as (_ & H2 & _ & H4 & _).
    fold (range_at b i).
    destruct (range_at b i) as [l h]. cbn [lo hi] in *.
    unfold DRange_union. cbn [lo hi].
    apply Qltb_false in H2. apply Qgtb_false in H4.
    now rewrite H2, H4. }
  rewrite E1.
  destruct b as [bs box]. unfold dim_ in *. cbn [bounds_ box_size__] in *.
  f_equal. apply map_seq_id. intros i Hi.
  destruct (Hax i Hi) as (H1 & H2 & H3 & H4 & H5).
  unfold range_at in *. cbn [bounds_] in *.
  now apply Add_bound_axis_encloses.
Qed.

Lemma Add_bound_encloses_witness :
  Add_bound (mkBound [mkRange 1 6; mkRange 0 4] [10; 10])
            (mkBound [mkRange 2 3; mkRange 0 4] [10; 10]) [10; 10]
  = mkBound [mkRange 1 6; mkRange 0 4] [10; 10].
Proof.
  apply (Add_bound_encloses
           (mkBound [mkRange 1 6; mkRange 0 4] [10; 10])
           (mkBound [mkRange 2 3; mkRange 0 4] [10; 10]) [10; 10]).
  reflexivity.
Defined.

(** X20: On an initialised bound, [Add] of a bound that follows the receiver
    within one period extends, on each axis, the cheaper way: up to
    [other.hi] when that adds strictly less than reaching [other.lo]
    through the wrap, and otherwise by moving [lo] to [other.lo]. *)
Theorem Add_bound_follows (b other : DHrectPeriodicBound) (size : vec) :
  Qltb (hi (range_at b 0)) 0 = false ->
  follows b other size = true ->
  dim_ (Add_bound b other size) = dim_ b /\
  box_size__ (Add_bound b other size) = box_size__ b /\
  forall d, (d < dim_ b)%nat ->
    range_at (Add_bound b other size) d =
    if Qltb (hi (range_at other d) - hi (range_at b d))
            (lo (range_at b d) + at_ size d - lo (range_at other d))
    then mkRange (lo (range_at b d)) (hi (range_at other d))
    else mkRange (lo (range_at other d)) (hi (range_at b d)).
Proof.
  intros Hinit Hfol. unfold Add_bound. rewrite Hinit.
  split; [apply dim_map_seq | split; [reflexivity |]].
  intros d Hd. rewrite range_at_map_seq by exact Hd.
  unfold follows in Hfol. rewrite all_axes_spec in Hfol.
  specialize (Hfol d Hd). rewrite !andb_true_iff in Hfol.
  destruct Hfol as [[[H1 H2] H3] H4].
  apply Qltb_true in H2, H4. apply Qle_bool_iff in H1, H3.
  assert (E : range_at (mkBound (bounds_ b) (box_size__ b)) d = range_at b d)
    by reflexivity.
  rewrite E. now apply Add_bound_axis_follows.
Qed.

Lemma Add_bound_follows_witness :
  let b := mkBound [mkRange 1 2; mkRange 0 1] [10; 10] in
  let other := mkBound [mkRange 3 4; mkRange 8 9] [10; 10] in
  let size := [10; 10] in
  dim_ (Add_bound b other size) = dim_ b /\
  box_size__ (Add_bound b other size) = box_size__ b /\
  forall d, (d < dim_ b)%nat ->
    range_at (Add_bound b other size) d =
    if Qltb (hi (range_at other d) - hi (range_at b d))
            (lo (range_at b d) + at_ size d - lo (range_at other d))
    then mkRange (lo (range_at b d)) (hi (range_at other d))
    else mkRange (lo (range_at other d)) (hi (range_at b d)).
Proof.
  cbv zeta.
  apply (Add_bound_follows
           (mkBound [mkRange 1 2; mkRange 0 1] [10; 10])
           (mkBound [mkRange 3 4; mkRange 8 9] [10; 10]) [10; 10]);
    reflexivity.
Defined.

(** ** The average of two boxes *)

(** X21: For two boxes of equal dimension with non-empty extents,
    [AverageBoxesInit] builds a bound of that dimension, keeps the period of
    the receiver, has non-empty extents, and its midpoint is half-way
    between the two midpoints. *)
Theorem AverageBoxesInit_spec (b box1 box2 : DHrectPeriodicBound) :
  dim_ box1 = dim_ box2 ->
  nonempty box1 = true ->
  nonempty box2 = true ->
  returns (AverageBoxesInit b box1 box2) (fun b' =>
    dim_ b' = dim_ box1 /\
    box_size__ b' = box_size__ b /\
    nonempty b' = true /\
    forall d, (d < dim_ box1)%nat ->
      at_ (CalculateMidpoint b') d
      == (at_ (CalculateMidpoint box1) d
          + at_ (CalculateMidpoint box2) d) / 2).
Proof.
  intros Hdim H1 H2. unfold AverageBoxesInit. cbv zeta.
  rewrite <- Hdim, Nat.eqb_refl. cbn [DEBUG_ASSERT bind returns].
  set (b' := mkBound _ _).
  assert (Hd' : dim_ b' = dim_ box1) by apply dim_map_seq.
  assert (Hr : forall d, (d < dim_ box1)%nat ->
            range_at b' d
            = DRange_scale (DRange_plus (range_at box1 d) (range_at box2 d))
                           (1 # 2))
    by (intros d Hd; unfold b'; now rewrite range_at_map_seq).
  split; [exact Hd' | split; [reflexivity | split]].
  - unfold nonempty. apply all_axes_spec. intros d Hd. rewrite Hd' in Hd.
    rewrite (Hr d Hd). cbn [DRange_scale DRange_plus lo hi].
    apply Qle_bool_iff.
    pose proof (nonempty_at box1 d H1 Hd).
    assert (Hd2 : (d < dim_ box2)%nat) by lia.
    pose proof (nonempty_at box2 d H2 Hd2). lra.
  - intros d Hd. unfold CalculateMidpoint.
    rewrite !at_map_seq by lia. rewrite (Hr d Hd).
    unfold DRange_mid. cbn [DRange_scale DRange_plus lo hi].
    halves. ring.
Qed.

Lemma AverageBoxesInit_spec_witness :
  let b := mkBound [] [10; 10] in
  let box1 := mkBound [mkRange 1 3; mkRange 0 4] [10; 10] in
  let box2 := mkBound [mkRange 7 9; mkRange 2 2] [10; 10] in
  returns (AverageBoxesInit b box1 box2) (fun b' =>
    dim_ b' = dim_ box1 /\
    box_size__ b' = box_size__ b /\
    nonempty b' = true /\
    forall d, (d < dim_ box1)%nat ->
      at_ (CalculateMidpoint b') d
      == (at_ (CalculateMidpoint box1) d
          + at_ (CalculateMidpoint box2) d) / 2).
Proof.
  cbv zeta.
  apply (AverageBoxesInit_spec
           (mkBound [] [10; 10])
           (mkBound [mkRange 1 3; mkRange 0 4] [10; 10])
           (mkBound [mkRange 7 9; mkRange 2 2] [10; 10]));
    reflexivity.
Defined.

(** ** Symmetry of the range of distances *)

Lemma RangeDistanceSq_bound_term_sym (r o : DRange) :
  fst (RangeDistanceSq_bound_term r o)
  == fst (RangeDistanceSq_bound_term o r) /\
  snd (RangeDistanceSq_bound_term r o)
  == snd (RangeDistanceSq_bound_term o r).
Proof.
  unfold RangeDistanceSq_bound_term. cbv zeta.
  destruct (Qgeb (lo o - hi r) (lo r - hi o)) eqn:E1;
    [apply Qgeb_true in E1 | apply Qgeb_false in E1];
  (destruct (Qgeb (lo r - hi o) (lo o - hi r)) eqn:E2;
    [apply Qgeb_true in E2 | apply Qgeb_false in E2]);
  repeat cases_cmp; cbn [fst snd]; split; lra.
Qed.

(** X22: [RangeDistanceSq] between two bounds of equal dimension returns the
    same pair whichever bound is the receiver. *)
Theorem RangeDistanceSq_bound_sym (A B : DHrectPeriodicBound) :
  dim_ A = dim_ B ->
  returns (RangeDistanceSq_bound A B) (fun rg =>
    returns (RangeDistanceSq_bound B A) (fun rg' =>
      lo rg == lo rg' /\ hi rg == hi rg')).
Proof.
  intros Hdim. unfold RangeDistanceSq_bound.
  rewrite <- Hdim, !DEBUG_SAME_SIZE_refl. cbn [bind returns lo hi].
  split; apply root_t_Proper, for_sum_ext; intros d Hd;
    apply pow_t_Proper;
    apply (RangeDistanceSq_bound_term_sym (range_at A d) (range_at B d)).
Qed.

Lemma RangeDistanceSq_bound_sym_witness :
  returns (RangeDistanceSq_bound
             (mkBound [mkRange 1 3; mkRange 0 4] [10; 10])
             (mkBound [mkRange 7 9; mkRange 2 3] [10; 10]))
    (fun rg =>
       returns (RangeDistanceSq_bound
                  (mkBound [mkRange 7 9; mkRange 2 3] [10; 10])
                  (mkBound [mkRange 1 3; mkRange 0 4] [10; 10]))
         (fun rg' => lo rg == lo rg' /\ hi rg == hi rg')).
Proof.
  apply (RangeDistanceSq_bound_sym
           (mkBound [mkRange 1 3; mkRange 0 4] [10; 10])
           (mkBound [mkRange 7 9; mkRange 2 3] [10; 10])).
  reflexivity.
Defined.

(** * The rounded reading *)

Lemma Qabs_cases (x : Q) :
  (0 <= x /\ Qabs x == x) \/ (x < 0 /\ Qabs x == - x).
Proof. exact (fabs_cases x). Qed.

Section RoundedFacts.

Variable rnd : Q -> Q.
Hypothesis Hrnd : Fl.Rounding rnd.

Let rnd_mono := Fl.rnd_mono rnd Hrnd.
Let rnd_opp := Fl.rnd_opp rnd Hrnd.
Let rnd_idem := Fl.rnd_idem rnd Hrnd.
Let rnd_double := Fl.rnd_double rnd Hrnd.
Let rnd_err := Fl.rnd_err rnd Hrnd.

Lemma rnd_compat (x y : Q) : x == y -> rnd x == rnd y.
Proof.
  intros E. apply Qle_antisym; apply rnd_mono; rewrite E; apply Qle_refl.
Qed.

Lemma rnd_between (x : Q) :
  x - Fl.eps * Qabs x <= rnd x /\ rnd x <= x + Fl.eps * Qabs x.
Proof.
  pose proof (rnd_err x) as H. apply Qabs_Qle_condition in H.
  destruct H as [H1 H2]. split; lra.
Qed.

Lemma rnd_zero : rnd 0 == 0.
Proof.
  destruct (rnd_between 0) as [H1 H2].
  change (Qabs 0) with 0 in *. lra.
Qed.

Lemma rnd_nonneg (x : Q) : 0 <= x -> 0 <= rnd x.
Proof. intros H. rewrite <- rnd_zero. now apply rnd_mono. Qed.

Lemma rnd_nonpos (x : Q) : x <= 0 -> rnd x <= 0.
Proof. intros H. rewrite <- rnd_zero. now apply rnd_mono. Qed.

(** The quotient by the period, rounded and multiplied back. *)
Lemma div_times (x T : Q) :
  0 < T ->
  x - Fl.eps * Qabs x <= Fl.div rnd x T * T /\
  Fl.div rnd x T * T <= x + Fl.eps * Qabs x.
Proof.
  intros HT. unfold Fl.div.
  destruct (rnd_between (x / T)) as [H1 H2].
  assert (Ex : x / T * T == x) by (field; lra).
  assert (Ea : Qabs (x / T) * T == Qabs x).
  { rewrite <- (Qabs_pos T) at 2 by lra.
    rewrite <- Qabs_Qmult. now rewrite Ex. }
  set (q := rnd (x / T)) in *. set (y := x / T) in *.
  set (ay := Qabs y) in *.
  assert (G1 : (y - Fl.eps * ay) * T <= q * T)
    by (apply Qmult_le_compat_r; lra).
  assert (G2 : q * T <= (y + Fl.eps * ay) * T)
    by (apply Qmult_le_compat_r; lra).
  assert (E1 : (y - Fl.eps * ay) * T == y * T - Fl.eps * (ay * T))
    by ring.
  assert (E2 : (y + Fl.eps * ay) * T == y * T + Fl.eps * (ay * T))
    by ring.
  rewrite Ex, Ea in E1, E2.
  rewrite E1 in G1. rewrite E2 in G2. split; assumption.
Qed.

Lemma floor_times (q T : Q) :
  0 < T -> q * T - T <= floor q * T /\ floor q * T <= q * T.
Proof.
  intros HT. unfold floor.
  pose proof (Qfloor_le q) as Hl.
  pose proof (Qlt_floor q) as Hu.
  rewrite inject_Z_plus in Hu. change (inject_Z 1) with 1 in Hu.
  set (n := inject_Z (Qfloor q)) in *.
  assert (G1 : n * T <= q * T) by (apply Qmult_le_compat_r; lra).
  assert (G2 : q * T <= (n + 1) * T) by (apply Qmult_le_compat_r; lra).
  split; lra.
Qed.

(** The fold of any [x] misses [[0, T]] by a few roundoffs of [x] and
    [T] at most. *)
Lemma wrap_bounds (x T : Q) :
  0 < T ->
  let B := Fl.eps * (2 * Qabs x + Fl.eps * Qabs x + T) in
  - (B + Fl.eps * (T + B)) <= Fl.wrap rnd x T /\
  Fl.wrap rnd x T <= T + B + Fl.eps * (T + B).
Proof.
  intros HT B. subst B. unfold Fl.wrap, Fl.sub, Fl.mul.
  destruct (div_times x T HT) as [Q1 Q2].
  destruct (floor_times (Fl.div rnd x T) T HT) as [N1 N2].
  set (P := floor (Fl.div rnd x T) * T) in *.
  set (QT := Fl.div rnd x T * T) in *.
  destruct (rnd_between P) as [M1 M2].
  set (m := rnd P) in *.
  destruct (rnd_between (x - m)) as [A1 A2].
  set (a := rnd (x - m)) in *.
  unfold Fl.eps in *.
  destruct (Qabs_cases x) as [[? Ex] | [? Ex]];
    destruct (Qabs_cases P) as [[? EP] | [? EP]];
    destruct (Qabs_cases (x - m)) as [[? Ed] | [? Ed]];
    rewrite Ex in *; rewrite EP in *; rewrite Ed in *;
    split; lra.
Qed.

(** A non-negative value that rounding leaves alone folds to a value no
    larger in magnitude. *)
Lemma wrap_small (x T : Q) :
  0 < T -> 0 <= x -> rnd x == x ->
  - x <= Fl.wrap rnd x T /\ Fl.wrap rnd x T <= x.
Proof.
  intros HT Hx Ex. unfold Fl.wrap, Fl.sub, Fl.mul.
  destruct (div_times x T HT) as [Q1 Q2].
  destruct (floor_times (Fl.div rnd x T) T HT) as [N1 N2].
  assert (Hq : 0 <= Fl.div rnd x T).
  { unfold Fl.div. apply rnd_nonneg. apply Qle_shift_div_l; lra. }
  assert (Hn : 0 <= floor (Fl.div rnd x T)).
  { unfold floor. apply Qfloor_resp_le in Hq.
    change (Qfloor 0) with 0%Z in Hq. rewrite Zle_Qle in Hq.
    exact Hq. }
  assert (HP : 0 <= floor (Fl.div rnd x T) * T)
    by (apply Qmult_le_0_compat; lra).
  set (P := floor (Fl.div rnd x T) * T) in *.
  set (QT := Fl.div rnd x T * T) in *.
  destruct (rnd_between P) as [M1 M2].
  pose proof (rnd_nonneg P HP) as Hm.
  set (m := rnd P) in *.
  rewrite (Qabs_pos x) in * by exact Hx.
  rewrite (Qabs_pos P) in * by exact HP.
  unfold Fl.eps in *.
  assert (D1 : - x <= x - m) by lra.
  assert (D2 : x - m <= x) by lra.
  apply rnd_mono in D1. apply rnd_mono in D2.
  rewrite rnd_opp, Ex in D1. rewrite Ex in D2.
  split; assumption.
Qed.

Lemma rnd_abs (y : Q) : Qabs (rnd y) <= Qabs y + Fl.eps * Qabs y.
Proof.
  destruct (rnd_between y) as [H1 H2]. unfold Fl.eps in *.
  destruct (Qabs_cases y) as [[? Ey] | [? Ey]];
    destruct (Qabs_cases (rnd y)) as [[? Er] | [? Er]];
    rewrite Ey in *; rewrite Er; lra.
Qed.

(** Folding a difference that is within [2^50] periods. *)
Lemma wrap_near (a b T : Q) :
  0 < T -> Qabs (a - b) <= 1125899906842624 * T ->
  - ((3 # 8) * T) <= Fl.wrap rnd (Fl.sub rnd a b) T /\
  Fl.wrap rnd (Fl.sub rnd a b) T <= (11 # 8) * T.
Proof.
  intros HT Hnear.
  destruct (wrap_bounds (Fl.sub rnd a b) T HT) as [W1 W2].
  pose proof (rnd_abs (a - b)) as HA. fold (Fl.sub rnd a b) in HA.
  pose proof (Qabs_nonneg (Fl.sub rnd a b)) as HA0.
  set (A := Qabs (Fl.sub rnd a b)) in *.
  set (A0 := Qabs (a - b)) in *.
  unfold Fl.eps in *. split; lra.
Qed.

(** The half period [box / 2.0] as the code computes it. *)
Lemma half_period (T : Q) :
  0 < T ->
  let v := Fl.div rnd T 2 in
  (1 # 2) * T - Fl.eps * ((1 # 2) * T) <= v /\
  v <= (1 # 2) * T + Fl.eps * ((1 # 2) * T) /\
  rnd v == v /\ Fl.mul rnd 2 v == 2 * v.
Proof.
  intros HT v. subst v. unfold Fl.div, Fl.mul.
  destruct (rnd_between (T / 2)) as [H1 H2].
  assert (Eh : Qabs (T / 2) == (1 # 2) * T).
  { rewrite Qabs_pos; halves; lra. }
  rewrite Eh in H1, H2. halves.
  repeat split; try lra.
  - apply rnd_idem.
  - apply rnd_double.
Qed.

Lemma MaxDistanceSq_point_term_wrap (r : DRange) (T p : Q) :
  Fl.MaxDistanceSq_point_term rnd r T p =
  let v := Fl.div rnd T 2 in
  let ah := Fl.wrap rnd (Fl.sub rnd (hi r) p) T in
  if Qltb ah v then ah
  else
    let al := Fl.wrap rnd (Fl.sub rnd (lo r) p) T in
    if Qgtb al v then Fl.sub rnd (Fl.mul rnd 2 v) al else v.
Proof. reflexivity. Qed.

Lemma MaxDistanceSq_bound_term_wrap (r o : DRange) (T : Q) :
  Fl.MaxDistanceSq_bound_term rnd r o T =
  let v := Fl.div rnd T 2 in
  fabs (max (min (Fl.wrap rnd (Fl.sub rnd (hi r) (lo o)) T) v)
            (min (Fl.wrap rnd (Fl.sub rnd (hi o) (lo r)) T) v)).
Proof. reflexivity. Qed.

(** Within [2^50] periods the per-axis term of the point overload is
    capped by the half period. *)
Lemma MaxDistanceSq_point_term_capped (r : DRange) (T p : Q) :
  0 < T ->
  Qabs (hi r - p) <= 1125899906842624 * T ->
  Qabs (lo r - p) <= 1125899906842624 * T ->
  fabs (Fl.MaxDistanceSq_point_term rnd r T p) <= Fl.div rnd T 2.
Proof.
  intros HT Hh Hl. rewrite MaxDistanceSq_point_term_wrap. cbv zeta.
  destruct (half_period T HT) as (V1 & V2 & V3 & V4). cbv zeta in *.
  destruct (wrap_near (hi r) p T HT Hh) as [Ah1 Ah2].
  destruct (wrap_near (lo r) p T HT Hl) as [Al1 Al2].
  set (v := Fl.div rnd T 2) in *.
  set (ah := Fl.wrap rnd (Fl.sub rnd (hi r) p) T) in *.
  set (al := Fl.wrap rnd (Fl.sub rnd (lo r) p) T) in *.
  unfold fabs, Fl.eps in *. apply Qabs_Qle_condition.
  destruct (Qltb ah v) eqn:E1;
    [apply Qltb_true in E1 | apply Qltb_false in E1].
  - split; lra.
  - destruct (Qgtb al v) eqn:E2;
      [apply Qgtb_true in E2 | apply Qgtb_false in E2].
    + unfold Fl.sub. rewrite (rnd_compat _ (2 * v - al))
        by (now rewrite V4).
      assert (D1 : - v <= 2 * v - al) by lra.
      assert (D2 : 2 * v - al <= v) by lra.
      apply rnd_mono in D1. apply rnd_mono in D2.
      rewrite rnd_opp, V3 in D1. rewrite V3 in D2.
      split; assumption.
    + split; lra.
Qed.

(** Within [2^50] periods the per-axis term of the bound overload is
    capped by the half period. *)
Lemma MaxDistanceSq_bound_term_capped (r o : DRange) (T : Q) :
  0 < T ->
  Qabs (hi r - lo o) <= 1125899906842624 * T ->
  Qabs (hi o - lo r) <= 1125899906842624 * T ->
  0 <= Fl.MaxDistanceSq_bound_term rnd r o T /\
  Fl.MaxDistanceSq_bound_term rnd r o T <= Fl.div rnd T 2.
Proof.
  intros HT Hh Hl. rewrite MaxDistanceSq_bound_term_wrap. cbv zeta.
  destruct (half_period T HT) as (V1 & V2 & _ & _). cbv zeta in *.
  destruct (wrap_near (hi r) (lo o) T HT Hh) as [Ah1 Ah2].
  destruct (wrap_near (hi o) (lo r) T HT Hl) as [Al1 Al2].
  set (v := Fl.div rnd T 2) in *.
  set (dh := Fl.wrap rnd (Fl.sub rnd (hi r) (lo o)) T) in *.
  set (dl := Fl.wrap rnd (Fl.sub rnd (hi o) (lo r)) T) in *.
  unfold Fl.eps in *.
  abstract_ops. split_cases; split; lra.
Qed.

(** For a contained coordinate the per-axis term of the point overload is
    no larger than the width of the axis as the code subtracts it. *)
Lemma MaxDistanceSq_point_term_width (r : DRange) (T p : Q) :
  0 < T -> lo r <= p -> p <= hi r ->
  fabs (Fl.MaxDistanceSq_point_term rnd r T p)
  <= Fl.sub rnd (hi r) (lo r).
Proof.
  intros HT Hlo Hhi. rewrite MaxDistanceSq_point_term_wrap. cbv zeta.
  destruct (half_period T HT) as (V1 & V2 & V3 & V4). cbv zeta in *.
  assert (Hx0 : 0 <= Fl.sub rnd (hi r) p)
    by (apply rnd_nonneg; lra).
  assert (Hxw : Fl.sub rnd (hi r) p <= Fl.sub rnd (hi r) (lo r))
    by (apply rnd_mono; lra).
  assert (Hxi : rnd (Fl.sub rnd (hi r) p) == Fl.sub rnd (hi r) p)
    by apply rnd_idem.
  destruct (wrap_small _ T HT Hx0 Hxi) as [Ah1 Ah2].
  assert (Hy0 : Fl.sub rnd (lo r) p <= 0)
    by (apply rnd_nonpos; lra).
  assert (Hyw : - Fl.sub rnd (hi r) (lo r) <= Fl.sub rnd (lo r) p).
  { unfold Fl.sub. rewrite <- rnd_opp. apply rnd_mono. lra. }
  assert (Hwi : rnd (Fl.sub rnd (hi r) (lo r)) == Fl.sub rnd (hi r) (lo r))
    by apply rnd_idem.
  destruct (wrap_bounds (Fl.sub rnd (lo r) p) T HT) as [Al1 Al2].
  cbv zeta in *.
  assert (EA : Qabs (Fl.sub rnd (lo r) p) == - Fl.sub rnd (lo r) p)
    by (apply Qabs_neg; exact Hy0).
  rewrite EA in Al1, Al2.
  set (w := Fl.sub rnd (hi r) (lo r)) in *.
  set (x := Fl.sub rnd (hi r) p) in *.
  set (y := Fl.sub rnd (lo r) p) in *.
  set (v := Fl.div rnd T 2) in *.
  set (ah := Fl.wrap rnd x T) in *.
  set (al := Fl.wrap rnd y T) in *.
  unfold fabs, Fl.eps in *. apply Qabs_Qle_condition.
  destruct (Qltb ah v) eqn:E1;
    [apply Qltb_true in E1 | apply Qltb_false in E1].
  - split; lra.
  - destruct (Qgtb al v) eqn:E2;
      [apply Qgtb_true in E2 | apply Qgtb_false in E2].
    + unfold Fl.sub. rewrite (rnd_compat _ (2 * v - al))
        by (now rewrite V4).
      assert (D1 : - w <= 2 * v - al) by lra.
      assert (D2 : 2 * v - al <= v) by lra.
      apply rnd_mono in D1. apply rnd_mono in D2.
      rewrite rnd_opp, Hwi in D1. rewrite V3 in D2.
      split; lra.
    + split; lra.
Qed.

(** *** The rounded accumulation loop *)

Lemma fl_for_sum_S (n : nat) (f : nat -> Q) :
  Fl.for_sum rnd (S n) f = Fl.add rnd (Fl.for_sum rnd n f) (f n).
Proof.
  unfold Fl.for_sum. rewrite seq_S, fold_left_app. reflexivity.
Qed.

Lemma fl_for_sum_le (n : nat) (f g : nat -> Q) :
  (forall d, (d < n)%nat -> f d <= g d) ->
  Fl.for_sum rnd n f <= Fl.for_sum rnd n g.
Proof.
  induction n as [| n IH]; intros H.
  - apply Qle_refl.
  - rewrite !fl_for_sum_S. unfold Fl.add. apply rnd_mono.
    apply Qplus_le_compat; [apply IH; auto with arith | apply H; lia].
Qed.

Lemma fl_for_sum_nonneg (n : nat) (f : nat -> Q) :
  (forall d, (d < n)%nat -> 0 <= f d) -> 0 <= Fl.for_sum rnd n f.
Proof.
  induction n as [| n IH]; intros H.
  - apply Qle_refl.
  - rewrite fl_for_sum_S. unfold Fl.add. apply rnd_nonneg.
    assert (0 <= Fl.for_sum rnd n f) by (apply IH; auto with arith).
    assert (0 <= f n) by (apply H; lia). lra.
Qed.

Variable pow_t : Q -> Q.
Variable root_t : Q -> Q.
Hypothesis Hpow : Fl.Power pow_t.
Hypothesis Hroot : Fl.Power root_t.

(** A rooted sum of powers is monotone in its non-negative terms. *)
Lemma aggregate_le (n : nat) (f g : nat -> Q) :
  (forall d, (d < n)%nat -> 0 <= f d /\ f d <= g d) ->
  0 <= root_t (Fl.for_sum rnd n (fun d => pow_t (f d))) /\
  root_t (Fl.for_sum rnd n (fun d => pow_t (f d)))
  <= root_t (Fl.for_sum rnd n (fun d => pow_t (g d))).
Proof.
  intros H.
  assert (H0 : 0 <= Fl.for_sum rnd n (fun d => pow_t (f d))).
  { apply fl_for_sum_nonneg. intros d Hd.
    apply (Fl.pow_nonneg _ Hpow), (H d Hd). }
  split.
  - apply (Fl.pow_nonneg _ Hroot), H0.
  - apply (Fl.pow_mono _ Hroot); [exact H0 |].
    apply fl_for_sum_le. intros d Hd.
    apply (Fl.pow_mono _ Hpow); apply (H d Hd).
Qed.

End RoundedFacts.

(** Exact arithmetic is one rounding, and the square and the identity are
    the two powers of the instance [t_pow = 2]. *)
Lemma exact_Rounding : Fl.Rounding (fun x => x).
Proof.
  split; intros; try lra.
  assert (E : x - x == 0) by ring. rewrite E. change (Qabs 0) with 0.
  pose proof (Qabs_nonneg x). unfold Fl.eps. lra.
Qed.

Lemma square_Power : Fl.Power (fun v => v * v).
Proof. split; intros; nra. Qed.

Lemma identity_Power : Fl.Power (fun s => s).
Proof. split; intros; lra. Qed.

(** ** Binary64 rounding is a rounding *)

(** *** Powers of two *)

Lemma two_pos (e : Z) : 0 < 2 ^ e.
Proof. apply Qpower_0_lt. reflexivity. Qed.

Lemma two_succ (e : Z) : 2 ^ (e + 1) == 2 * 2 ^ e.
Proof.
  rewrite Qpower_plus by discriminate. rewrite Qpower_1_r. ring.
Qed.

Lemma two_mono (e e' : Z) : (e <= e')%Z -> 2 ^ e <= 2 ^ e'.
Proof. intros H. apply Qpower_le_compat_l; [exact H | discriminate]. Qed.

Lemma two_step (e e' : Z) : (e < e')%Z -> 2 * 2 ^ e <= 2 ^ e'.
Proof.
  intros H. rewrite <- two_succ. apply two_mono. lia.
Qed.

Lemma in_binade_unique (a : Q) (e e' : Z) :
  Fl.in_binade a e -> Fl.in_binade a e' -> e = e'.
Proof.
  intros [H1 H2] [H1' H2'].
  destruct (Z.lt_trichotomy e e') as [H | [H | H]]; [| exact H |].
  - pose proof (two_step e e' H). lra.
  - pose proof (two_step e' e H). lra.
Qed.

Lemma log2_bounds (n : Z) :
  (0 < n)%Z ->
  2 ^ Z.log2 n <= inject_Z n /\ inject_Z n < 2 * 2 ^ Z.log2 n.
Proof.
  intros Hn. destruct (Z.log2_spec n Hn) as [H1 H2].
  pose proof (Z.log2_nonneg n) as H0.
  rewrite Zle_Qle in H1. rewrite Zlt_Qlt in H2.
  rewrite Zpower_Qpower in H1 by exact H0.
  rewrite Zpower_Qpower in H2 by lia.
  change (inject_Z 2) with 2 in *.
  replace (Z.succ (Z.log2 n)) with (Z.log2 n + 1)%Z in H2 by lia.
  rewrite two_succ in H2. split; assumption.
Qed.

Lemma binade_spec (a : Q) : 0 < a -> Fl.in_binade a (Fl.binade a).
Proof.
  intros Ha. unfold Fl.binade.
  set (n := Qnum a). set (d := Z.pos (Qden a)).
  assert (Hn : (0 < n)%Z).
  { unfold n. destruct a as [an ad]. unfold Qlt in Ha. simpl in *. lia. }
  assert (Hd : (0 < d)%Z) by (unfold d; lia).
  destruct (log2_bounds n Hn) as [N1 N2].
  destruct (log2_bounds d Hd) as [D1 D2].
  assert (Ea : a * inject_Z d == inject_Z n).
  { unfold n, d. destruct a as [an ad]. unfold Qeq, Qmult, inject_Z.
    simpl. rewrite Pos.mul_1_r. lia. }
  set (e0 := (Z.log2 n - Z.log2 d - 52)%Z).
  assert (El : 2 ^ Z.log2 n == 2 ^ e0 * 2 ^ Z.log2 d * 4503599627370496).
  { replace (Z.log2 n) with (e0 + Z.log2 d + 52)%Z at 1 by (unfold e0; lia).
    rewrite !Qpower_plus by discriminate. reflexivity. }
  pose proof (two_pos e0) as HE. pose proof (two_pos (Z.log2 d)) as HL.
  set (N := inject_Z n) in *. set (D := inject_Z d) in *.
  set (E := 2 ^ e0) in *. set (L := 2 ^ Z.log2 d) in *.
  set (LN := 2 ^ Z.log2 n) in *.
  assert (HD : 0 < D) by lra.
  assert (Lo : 2251799813685248 * E < a).
  { assert (G : 2251799813685248 * E * D < a * D).
    { assert (E * D < 2 * (E * L)) by nra. nra. }
    destruct (Qlt_le_dec (2251799813685248 * E) a) as [H | H];
      [exact H |].
    assert (a * D <= 2251799813685248 * E * D)
      by (apply Qmult_le_compat_r; lra). lra. }
  assert (Hi : a < 9007199254740992 * E).
  { assert (G : a * D < 9007199254740992 * E * D).
    { assert (E * L <= E * D) by nra. nra. }
    destruct (Qlt_le_dec a (9007199254740992 * E)) as [H | H];
      [exact H |].
    assert (9007199254740992 * E * D <= a * D)
      by (apply Qmult_le_compat_r; lra). lra. }
  change (2 ^ 52) with 4503599627370496.
  destruct (Qle_bool 4503599627370496 (a / E)) eqn:T.
  - apply Qle_bool_iff in T.
    assert (T' : 4503599627370496 * E <= a).
    { assert (a == a / E * E) by (field; lra).
      assert (4503599627370496 * E <= a / E * E)
        by (apply Qmult_le_compat_r; lra). lra. }
    split; [exact T' | exact Hi].
  - assert (T' : a < 4503599627370496 * E).
    { destruct (Qlt_le_dec a (4503599627370496 * E)) as [H | H];
        [exact H |].
      assert (G : 4503599627370496 <= a / E)
        by (apply Qle_shift_div_l; lra).
      apply Qle_bool_iff in G. congruence. }
    assert (Ep : 2 * 2 ^ (e0 - 1) == E).
    { rewrite <- two_succ. replace (e0 - 1 + 1)%Z with e0 by lia.
      reflexivity. }
    split; lra.
Qed.

(** *** Rounding to the nearest integer *)

Lemma Qcompare_cases (x y : Q) :
  match Qcompare x y with
  | Eq => x == y
  | Lt => x < y
  | Gt => y < x
  end.
Proof.
  destruct (Qcompare x y) eqn:C.
  - now apply Qeq_alt.
  - now apply Qlt_alt.
  - now apply Qgt_alt.
Qed.

Lemma round_half_even_near (s : Q) :
  - (1 # 2) <= inject_Z (Fl.round_half_even s) - s /\
  inject_Z (Fl.round_half_even s) - s <= 1 # 2.
Proof.
  unfold Fl.round_half_even.
  pose proof (Qfloor_le s) as Hl. pose proof (Qlt_floor s) as Hu.
  rewrite inject_Z_plus in Hu. change (inject_Z 1) with 1 in Hu.
  pose proof (Qcompare_cases (s - inject_Z (Qfloor s)) (1 # 2)) as C.
  destruct (Qcompare (s - inject_Z (Qfloor s)) (1 # 2));
    [destruct (Z.even (Qfloor s)) | |];
    rewrite ?inject_Z_plus; change (inject_Z 1) with 1; split; lra.
Qed.

Lemma round_half_even_compat (s t : Q) :
  s == t -> Fl.round_half_even s = Fl.round_half_even t.
Proof.
  intros E. unfold Fl.round_half_even.
  rewrite (Qfloor_comp _ _ E).
  assert (E' : s - inject_Z (Qfloor t) == t - inject_Z (Qfloor t))
    by (rewrite E; reflexivity).
  now rewrite (Qcompare_comp _ _ E' _ _ (Qeq_refl (1 # 2))).
Qed.

Lemma round_half_even_Z (m : Z) : Fl.round_half_even (inject_Z m) = m.
Proof.
  unfold Fl.round_half_even. rewrite Qfloor_Z.
  assert (C : Qcompare (inject_Z m - inject_Z m) (1 # 2) = Lt).
  { apply Qlt_alt.
    assert (E : inject_Z m - inject_Z m == 0) by ring.
    rewrite E. reflexivity. }
  now rewrite C.
Qed.

Lemma round_half_even_mono (s t : Q) :
  s <= t -> (Fl.round_half_even s <= Fl.round_half_even t)%Z.
Proof.
  intros H. pose proof (Qfloor_resp_le _ _ H) as Hf.
  unfold Fl.round_half_even.
  pose proof (Qfloor_le s) as Sl. pose proof (Qlt_floor s) as Su.
  pose proof (Qfloor_le t) as Tl. pose proof (Qlt_floor t) as Tu.
  rewrite inject_Z_plus in Su, Tu. change (inject_Z 1) with 1 in Su, Tu.
  pose proof (Qcompare_cases (s - inject_Z (Qfloor s)) (1 # 2)) as C1.
  pose proof (Qcompare_cases (t - inject_Z (Qfloor t)) (1 # 2)) as C2.
  destruct (Z.eq_dec (Qfloor s) (Qfloor t)) as [Ef | Nf].
  - rewrite Ef in *.
    destruct (Qcompare (s - inject_Z (Qfloor t)) (1 # 2));
      destruct (Qcompare (t - inject_Z (Qfloor t)) (1 # 2));
      destruct (Z.even (Qfloor t)); try lia; exfalso; lra.
  - assert (Hlt : (Qfloor s + 1 <= Qfloor t)%Z) by lia.
    destruct (Qcompare (s - inject_Z (Qfloor s)) (1 # 2));
      destruct (Qcompare (t - inject_Z (Qfloor t)) (1 # 2));
      destruct (Z.even (Qfloor s)); destruct (Z.even (Qfloor t)); lia.
Qed.

(** *** The value of [Fl.rnd64] *)

Lemma Qabs_pos_eq (q : Q) : 0 < q -> Qabs q = q.
Proof.
  intros H. destruct q as [n d]. unfold Qlt in H. simpl in H.
  unfold Qabs. f_equal. apply Z.abs_eq. lia.
Qed.

Lemma rnd64_pos (q : Q) (e : Z) :
  0 < q -> Fl.in_binade q e ->
  Fl.rnd64 q == inject_Z (Fl.round_half_even (q / 2 ^ e)) * 2 ^ e.
Proof.
  intros Hq He. unfold Fl.rnd64.
  assert (N0 : Qeq_bool q 0 = false).
  { destruct (Qeq_bool q 0) eqn:E; [| reflexivity].
    apply Qeq_bool_iff in E. lra. }
  assert (P0 : Qle_bool 0 q = true) by (apply Qle_bool_iff; lra).
  rewrite N0, P0, (Qabs_pos_eq q Hq).
  rewrite (in_binade_unique q _ e (binade_spec q Hq) He). reflexivity.
Qed.

Lemma rnd64_zero (q : Q) : q == 0 -> Fl.rnd64 q == 0.
Proof.
  intros H. unfold Fl.rnd64. apply Qeq_bool_iff in H. now rewrite H.
Qed.

Lemma rnd64_opp (q : Q) : Fl.rnd64 (- q) == - Fl.rnd64 q.
Proof.
  unfold Fl.rnd64.
  destruct (Qeq_bool q 0) eqn:E.
  - apply Qeq_bool_iff in E.
    assert (E' : Qeq_bool (- q) 0 = true) by (apply Qeq_bool_iff; lra).
    rewrite E'. reflexivity.
  - assert (E' : Qeq_bool (- q) 0 = false).
    { destruct (Qeq_bool (- q) 0) eqn:F; [| reflexivity].
      apply Qeq_bool_iff in F.
      assert (G : q == 0) by lra. apply Qeq_bool_iff in G. congruence. }
    rewrite E'.
    assert (Ea : Qabs (- q) = Qabs q).
    { destruct q as [n d]. unfold Qabs, Qopp. simpl. f_equal.
      apply Z.abs_opp. }
    rewrite Ea.
    assert (Hne : ~ q == 0).
    { intros G. apply Qeq_bool_iff in G. congruence. }
    destruct (Qle_bool 0 q) eqn:S; destruct (Qle_bool 0 (- q)) eqn:S';
      try apply Qle_bool_iff in S; try apply Qle_bool_iff in S'.
    + exfalso. apply Hne. lra.
    + reflexivity.
    + ring.
    + exfalso.
      destruct (Qlt_le_dec q 0) as [G | G].
      * assert (G' : 0 <= - q) by lra. apply Qle_bool_iff in G'. congruence.
      * apply Qle_bool_iff in G. congruence.
Qed.

(** *** The significand *)
Lemma mantissa_bounds (q : Q) (e : Z) :
  Fl.in_binade q e ->
  (4503599627370496 <= Fl.round_half_even (q / 2 ^ e) <= 9007199254740992)%Z.
Proof.
  intros [H1 H2]. pose proof (two_pos e) as HP.
  assert (S1 : inject_Z 4503599627370496 <= q / 2 ^ e).
  { apply Qle_shift_div_l; [exact HP |].
    change (inject_Z 4503599627370496) with 4503599627370496. exact H1. }
  assert (S2 : q / 2 ^ e <= inject_Z 9007199254740992).
  { apply Qle_shift_div_r; [exact HP |].
    change (inject_Z 9007199254740992) with 9007199254740992. lra. }
  apply round_half_even_mono in S1. apply round_half_even_mono in S2.
  rewrite round_half_even_Z in S1, S2. lia.
Qed.

Lemma rnd64_pos_bounds (q : Q) (e : Z) :
  0 < q -> Fl.in_binade q e ->
  4503599627370496 * 2 ^ e <= Fl.rnd64 q /\
  Fl.rnd64 q <= 9007199254740992 * 2 ^ e /\
  Qabs (Fl.rnd64 q - q) <= Fl.eps * q.
Proof.
  intros Hq He. rewrite (rnd64_pos q e Hq He).
  pose proof (mantissa_bounds q e He) as [M1 M2].
  destruct (round_half_even_near (q / 2 ^ e)) as [R1 R2].
  pose proof (two_pos e) as HP. destruct He as [H1 H2].
  rewrite Zle_Qle in M1, M2.
  change (inject_Z 4503599627370496) with 4503599627370496 in M1.
  change (inject_Z 9007199254740992) with 9007199254740992 in M2.
  set (m := inject_Z (Fl.round_half_even (q / 2 ^ e))) in *.
  assert (Es : q == q / 2 ^ e * 2 ^ e) by (field; lra).
  set (s := q / 2 ^ e) in *. set (P := 2 ^ e) in *.
  assert (G1 : 4503599627370496 * P <= m * P)
    by (apply Qmult_le_compat_r; lra).
  assert (G2 : m * P <= 9007199254740992 * P)
    by (apply Qmult_le_compat_r; lra).
  assert (G3 : (s - (1 # 2)) * P <= m * P)
    by (apply Qmult_le_compat_r; lra).
  assert (G4 : m * P <= (s + (1 # 2)) * P)
    by (apply Qmult_le_compat_r; lra).
  repeat split; try assumption.
  apply Qabs_Qle_condition. unfold Fl.eps. split; lra.
Qed.

(** *** Representable values are fixed *)

Lemma rnd64_repr (m e : Z) :
  (4503599627370496 <= m <= 9007199254740992)%Z ->
  Fl.rnd64 (inject_Z m * 2 ^ e) == inject_Z m * 2 ^ e.
Proof.
  intros [M1 M2]. pose proof (two_pos e) as HP.
  assert (M1' := M1). assert (M2' := M2).
  rewrite Zle_Qle in M1', M2'.
  change (inject_Z 4503599627370496) with 4503599627370496 in M1'.
  change (inject_Z 9007199254740992) with 9007199254740992 in M2'.
  assert (Hv : 0 < inject_Z m * 2 ^ e).
  { apply Qmult_lt_0_compat; lra. }
  assert (G1 : 4503599627370496 * 2 ^ e <= inject_Z m * 2 ^ e)
    by (apply Qmult_le_compat_r; lra).
  destruct (Z.eq_dec m 9007199254740992) as [Em | Nm].
  - subst m. change (inject_Z 9007199254740992) with 9007199254740992 in *.
    assert (Ev : 9007199254740992 * 2 ^ e
                 == 4503599627370496 * 2 ^ (e + 1))
      by (rewrite two_succ; ring).
    assert (Hb : Fl.in_binade (9007199254740992 * 2 ^ e) (e + 1)).
    { unfold Fl.in_binade. rewrite two_succ. split; lra. }
    rewrite (rnd64_pos _ (e + 1) Hv Hb).
    assert (Es : 9007199254740992 * 2 ^ e / 2 ^ (e + 1)
                 == inject_Z 4503599627370496).
    { change (inject_Z 4503599627370496) with 4503599627370496.
      rewrite two_succ. field. lra. }
    rewrite (round_half_even_compat _ _ Es), round_half_even_Z.
    change (inject_Z 4503599627370496) with 4503599627370496.
    rewrite Ev. reflexivity.
  - assert (Hlt : (m < 9007199254740992)%Z) by lia.
    rewrite Zlt_Qlt in Hlt.
    change (inject_Z 9007199254740992) with 9007199254740992 in Hlt.
    assert (G2 : inject_Z m * 2 ^ e < 9007199254740992 * 2 ^ e)
      by (apply Qmult_lt_compat_r; lra).
    assert (Hb : Fl.in_binade (inject_Z m * 2 ^ e) e) by (split; assumption).
    rewrite (rnd64_pos _ e Hv Hb).
    assert (Es : inject_Z m * 2 ^ e / 2 ^ e == inject_Z m)
      by (field; lra).
    rewrite (round_half_even_compat _ _ Es), round_half_even_Z.
    reflexivity.
Qed.

Lemma Qopp_opp_eq (q : Q) : - - q = q.
Proof.
  destruct q as [n d]. unfold Qopp. simpl. f_equal. lia.
Qed.

Lemma rnd64_neg (q : Q) : Fl.rnd64 q == - Fl.rnd64 (- q).
Proof.
  pose proof (rnd64_opp (- q)) as H. rewrite Qopp_opp_eq in H.
  exact H.
Qed.

Lemma rnd64_pos_sign (q : Q) : 0 < q -> 0 < Fl.rnd64 q.
Proof.
  intros Hq.
  destruct (rnd64_pos_bounds q _ Hq (binade_spec q Hq)) as [H1 _].
  pose proof (two_pos (Fl.binade q)). lra.
Qed.

Lemma rnd64_compat_pos (x y : Q) :
  0 < x -> x == y -> Fl.rnd64 x == Fl.rnd64 y.
Proof.
  intros Hx E.
  assert (Hy : 0 < y) by lra.
  pose proof (binade_spec x Hx) as Hb.
  assert (Hb' : Fl.in_binade y (Fl.binade x)).
  { destruct Hb as [B1 B2]. split; lra. }
  rewrite (rnd64_pos x _ Hx Hb), (rnd64_pos y _ Hy Hb').
  assert (Es : x / 2 ^ Fl.binade x == y / 2 ^ Fl.binade x)
    by (unfold Qdiv; apply Qmult_comp; [exact E | reflexivity]).
  now rewrite (round_half_even_compat _ _ Es).
Qed.

Lemma rnd64_compat (x y : Q) : x == y -> Fl.rnd64 x == Fl.rnd64 y.
Proof.
  intros E. destruct (Q_dec x 0) as [[H | H] | H].
  - rewrite (rnd64_neg x), (rnd64_neg y).
    apply Qopp_comp. apply rnd64_compat_pos; lra.
  - now apply rnd64_compat_pos.
  - rewrite (rnd64_zero x H), (rnd64_zero y) by lra. reflexivity.
Qed.

#[global] Instance rnd64_Proper : Proper (Qeq ==> Qeq) Fl.rnd64.
Proof. intros x y E. now apply rnd64_compat. Qed.

Lemma rnd64_mono_pos (x y : Q) :
  0 < x -> x <= y -> Fl.rnd64 x <= Fl.rnd64 y.
Proof.
  intros Hx Hxy. assert (Hy : 0 < y) by lra.
  pose proof (binade_spec x Hx) as Bx.
  pose proof (binade_spec y Hy) as By.
  destruct (Z.lt_trichotomy (Fl.binade x) (Fl.binade y)) as [H | [H | H]].
  - destruct (rnd64_pos_bounds x _ Hx Bx) as (_ & U & _).
    destruct (rnd64_pos_bounds y _ Hy By) as (L & _ & _).
    pose proof (two_step _ _ H). lra.
  - rewrite H in Bx.
    rewrite (rnd64_pos x _ Hx Bx), (rnd64_pos y _ Hy By).
    pose proof (two_pos (Fl.binade y)) as HP.
    apply Qmult_le_compat_r; [| lra].
    rewrite <- Zle_Qle. apply round_half_even_mono.
    apply Qmult_le_compat_r; [exact Hxy |].
    apply Qlt_le_weak, Qinv_lt_0_compat, HP.
  - exfalso. destruct Bx as [B1 _]. destruct By as [_ B2].
    pose proof (two_step _ _ H). lra.
Qed.

Lemma rnd64_mono (x y : Q) : x <= y -> Fl.rnd64 x <= Fl.rnd64 y.
Proof.
  intros Hxy.
  destruct (Q_dec x 0) as [[Hx | Hx] | Hx];
    destruct (Q_dec y 0) as [[Hy | Hy] | Hy]; try (exfalso; lra).
  - rewrite (rnd64_neg x), (rnd64_neg y).
    assert (G : Fl.rnd64 (- y) <= Fl.rnd64 (- x))
      by (apply rnd64_mono_pos; lra).
    lra.
  - rewrite (rnd64_neg x).
    assert (0 < Fl.rnd64 (- x)) by (apply rnd64_pos_sign; lra).
    assert (0 < Fl.rnd64 y) by (apply rnd64_pos_sign; lra). lra.
  - rewrite (rnd64_neg x), (rnd64_zero y Hy).
    assert (0 < Fl.rnd64 (- x)) by (apply rnd64_pos_sign; lra). lra.
  - now apply rnd64_mono_pos.
  - rewrite (rnd64_zero x Hx).
    assert (0 < Fl.rnd64 y) by (apply rnd64_pos_sign; lra). lra.
  - rewrite (rnd64_zero x Hx), (rnd64_zero y Hy). lra.
Qed.

Lemma rnd64_fixed_pos (q : Q) :
  0 < q ->
  Fl.rnd64 (Fl.rnd64 q) == Fl.rnd64 q /\ Fl.rnd64 (2 * Fl.rnd64 q) == 2 * Fl.rnd64 q.
Proof.
  intros Hq. pose proof (binade_spec q Hq) as Hb.
  pose proof (mantissa_bounds q _ Hb) as [M1 M2].
  pose proof (rnd64_pos q _ Hq Hb) as E.
  set (m := Fl.round_half_even (q / 2 ^ Fl.binade q)) in *.
  split.
  - rewrite (rnd64_compat _ _ E), E. apply rnd64_repr. lia.
  - assert (E2 : 2 * Fl.rnd64 q == inject_Z m * 2 ^ (Fl.binade q + 1))
      by (rewrite E, two_succ; ring).
    rewrite (rnd64_compat _ _ E2), E2. apply rnd64_repr. lia.
Qed.

(** [Fl.rnd64] is a rounding in the sense of [Fl.Rounding]. *)
Lemma rnd64_Rounding : Fl.Rounding Fl.rnd64.
Proof.
  split.
  - exact rnd64_mono.
  - exact rnd64_opp.
  - intros x. destruct (Q_dec x 0) as [[H | H] | H].
    + rewrite (rnd64_neg x), rnd64_opp.
      apply Qopp_comp. apply rnd64_fixed_pos. lra.
    + apply rnd64_fixed_pos, H.
    + rewrite (rnd64_compat _ _ (rnd64_zero x H)).
      rewrite (rnd64_zero x H). apply rnd64_zero. reflexivity.
  - intros x. destruct (Q_dec x 0) as [[H | H] | H].
    + assert (E : 2 * Fl.rnd64 x == - (2 * Fl.rnd64 (- x)))
        by (rewrite (rnd64_neg x); ring).
      rewrite (rnd64_compat _ _ E), rnd64_opp, E.
      apply Qopp_comp. apply rnd64_fixed_pos. lra.
    + apply rnd64_fixed_pos, H.
    + assert (E : 2 * Fl.rnd64 x == 0)
        by (rewrite (rnd64_zero x H); ring).
      rewrite (rnd64_compat _ _ E), E. apply rnd64_zero. reflexivity.
  - intros x. destruct (Q_dec x 0) as [[H | H] | H].
    + assert (Hn : 0 < - x) by lra.
      destruct (rnd64_pos_bounds _ _ Hn (binade_spec _ Hn)) as (_ & _ & B).
      rewrite (Qabs_neg x) by lra.
      assert (E : Fl.rnd64 x - x == - (Fl.rnd64 (- x) - - x))
        by (rewrite (rnd64_neg x); ring).
      rewrite E, Qabs_opp. exact B.
    + destruct (rnd64_pos_bounds _ _ H (binade_spec _ H)) as (_ & _ & B).
      rewrite (Qabs_pos x) by lra. exact B.
    + assert (E : Fl.rnd64 x - x == 0)
        by (rewrite (rnd64_zero x H); lra).
      rewrite E. change (Qabs 0) with 0.
      pose proof (Qabs_nonneg x). unfold Fl.eps. lra.
Qed.

(** The two powers of the binary64 instance [t_pow = 2]. *)
Lemma pow2_Power : Fl.Power Fl.pow2.
Proof.
  split; intros; unfold Fl.pow2.
  - rewrite <- (rnd64_zero 0) by reflexivity.
    apply rnd64_mono. nra.
  - apply rnd64_mono. nra.
Qed.

Lemma root1_Power : Fl.Power Fl.root1.
Proof. split; intros; unfold Fl.root1; lra. Qed.

(** The two powers of the binary64 instance [t_pow = 1]. *)
Lemma pow1_Power : Fl.Power Fl.pow1.
Proof. split; intros; unfold Fl.pow1; lra. Qed.

Lemma root2_Power : Fl.Power Fl.root2.
Proof. exact pow2_Power. Qed.

Lemma near_point_at (b : DHrectPeriodicBound) (p : vec) (d : nat) :
  near_point b p = true -> (d < dim_ b)%nat ->
  Qabs (hi (range_at b d) - at_ p d)
  <= 1125899906842624 * at_ (box_size__ b) d /\
  Qabs (lo (range_at b d) - at_ p d)
  <= 1125899906842624 * at_ (box_size__ b) d.
Proof.
  intros H Hd. unfold near_point in H. rewrite all_axes_spec in H.
  specialize (H d Hd). apply andb_true_iff in H. destruct H as [H1 H2].
  split; now apply Qle_bool_iff.
Qed.

Lemma near_bound_at (b other : DHrectPeriodicBound) (d : nat) :
  near_bound b other = true -> (d < dim_ b)%nat ->
  Qabs (hi (range_at b d) - lo (range_at other d))
  <= 1125899906842624 * at_ (box_size__ b) d /\
  Qabs (hi (range_at other d) - lo (range_at b d))
  <= 1125899906842624 * at_ (box_size__ b) d.
Proof.
  intros H Hd. unfold near_bound in H. rewrite all_axes_spec in H.
  specialize (H d Hd). apply andb_true_iff in H. destruct H as [H1 H2].
  split; now apply Qle_bool_iff.
Qed.

(** ** C1: the maximum distance to a contained point *)

(** C1 (amended): under any rounding of the arithmetic in the sense of
    [Fl.Rounding] and any [t_pow] whose two powers are non-negative and
    monotone on non-negative arguments, [MaxDistanceSq(p)] is never
    negative; and for a bound with strictly positive periods and a point
    [p] of its dimension with [Contains(p)], it is at most the diagonal of
    the bound, the widths [hi - lo] aggregated by the same sum and powers.
    It is not zero at contained points in general, and nothing is said of
    [MinDistanceSq]. *)
Theorem MaxDistanceSq_point_diagonal
    (rnd pow_t root_t : Q -> Q) (b : DHrectPeriodicBound) (p : vec) :
  Fl.Rounding rnd -> Fl.Power pow_t -> Fl.Power root_t ->
  length p = dim_ b ->
  period_positive b = true ->
  0 <= Fl.MaxDistanceSq_point rnd pow_t root_t b p /\
  (Contains b p = true ->
   Fl.MaxDistanceSq_point rnd pow_t root_t b p
   <= Fl.diagonal_sq rnd pow_t root_t b).
Proof.
  intros Hrnd Hpow Hroot Hlen Hpos. split.
  - unfold Fl.MaxDistanceSq_point.
    apply (aggregate_le rnd Hrnd pow_t root_t Hpow Hroot (dim_ b)
             (fun d => fabs (Fl.MaxDistanceSq_point_term rnd (range_at b d)
                               (at_ (box_size__ b) d) (at_ p d)))
             (fun d => fabs (Fl.MaxDistanceSq_point_term rnd (range_at b d)
                               (at_ (box_size__ b) d) (at_ p d)))).
    intros d Hd. split; [apply Qabs_nonneg | apply Qle_refl].
  - intros Hin. unfold Fl.MaxDistanceSq_point, Fl.diagonal_sq.
    apply (aggregate_le rnd Hrnd pow_t root_t Hpow Hroot (dim_ b)
             (fun d => fabs (Fl.MaxDistanceSq_point_term rnd (range_at b d)
                               (at_ (box_size__ b) d) (at_ p d)))
             (fun d => Fl.sub rnd (hi (range_at b d)) (lo (range_at b d)))).
    intros d Hd. split; [apply Qabs_nonneg |].
    destruct (Contains_at b p d Hin) as [Hlo Hhi]; [lia |].
    apply MaxDistanceSq_point_term_width;
      [exact Hrnd | now apply period_positive_at | exact Hlo | exact Hhi].
Qed.

Lemma MaxDistanceSq_point_diagonal_witness :
  let b := mkBound [mkRange (Fl.rnd64 (1 # 10)) (Fl.rnd64 (4 # 10));
                    mkRange 0 5]
                   [10; Fl.rnd64 (13 # 10)] in
  let p := [Fl.rnd64 (2 # 10); 5] in
  0 <= Fl.MaxDistanceSq_point Fl.rnd64 Fl.pow1 Fl.root2 b p /\
  Fl.MaxDistanceSq_point Fl.rnd64 Fl.pow1 Fl.root2 b p
  <= Fl.diagonal_sq Fl.rnd64 Fl.pow1 Fl.root2 b.
Proof.
  cbv zeta.
  destruct (MaxDistanceSq_point_diagonal Fl.rnd64 Fl.pow1 Fl.root2
              (mkBound [mkRange (Fl.rnd64 (1 # 10)) (Fl.rnd64 (4 # 10));
                        mkRange 0 5]
                       [10; Fl.rnd64 (13 # 10)])
              [Fl.rnd64 (2 # 10); 5]
              rnd64_Rounding pow1_Power root2_Power) as [H0 Hin];
    [reflexivity | vm_compute; reflexivity |].
  split; [exact H0 | apply Hin; vm_compute; reflexivity].
Defined.

(** ** C2: translation by whole periods, in binary64 *)

(** C2 at one input, in binary64 with [t_pow = 2]: for the bound
    [[-3.1, -2.1]] of period [1.3] and the point [3.4], the translate
    [3.4 + 2 * 1.3] is exactly [6.0], yet [MinDistanceSq(3.4)] is [1] and
    [MinDistanceSq(6.0)] is [0].  The width folds to [bh = 1]; the offset
    [a] of [3.4] folds to [0] and that of [6.0] to [5 * 2^-52] below the
    period, the two ends of one period, and the test [bh > a] returns
    [a - bh = -1] at the first and [0] at the second.  (Without rounding
    both results would be [0].) *)
Theorem MinDistanceSq_point_translation_example :
  let T := Fl.rnd64 (13 # 10) in
  let r := mkRange (Fl.rnd64 (- (31 # 10))) (Fl.rnd64 (- (21 # 10))) in
  let b := mkBound [r] [T] in
  let p := Fl.rnd64 (34 # 10) in
  period_positive b = true /\
  p + 2 * T == 6 /\
  Fl.add Fl.rnd64 p (Fl.mul Fl.rnd64 2 T) == 6 /\
  Fl.MinDistanceSq_point Fl.rnd64 Fl.pow2 Fl.root1 b [p] == 1 /\
  Fl.MinDistanceSq_point Fl.rnd64 Fl.pow2 Fl.root1 b [6] == 0 /\
  Fl.wrap Fl.rnd64 (Fl.sub Fl.rnd64 (hi r) (lo r)) T == 1 /\
  Fl.wrap Fl.rnd64 (Fl.sub Fl.rnd64 p (lo r)) T == 0 /\
  T - Fl.wrap Fl.rnd64 (Fl.sub Fl.rnd64 6 (lo r)) T
  == 5 # 4503599627370496 /\
  Fl.MinDistanceSq_point_term Fl.rnd64 r T p == - (1) /\
  Fl.MinDistanceSq_point_term Fl.rnd64 r T 6 == 0 /\
  MinDistanceSq_point b [p] == 0 /\ MinDistanceSq_point b [6] == 0.
Proof.
  cbv zeta. repeat split; vm_compute; reflexivity.
Qed.

(** ** C7: the maximum distance and the half period *)

(** C7, as stated, fails in binary64: with period [1.3], the point [4e18]
    gives the bound [[1, 3]] a per-axis term of [-512], and the bound
    [[-2e17, 4e17]] gives the bound [[0, 0]] a term of [32]; the half
    period is [0.65]. *)
Lemma MaxDistanceSq_terms_counterexample :
  let T := Fl.rnd64 (13 # 10) in
  0 < T /\
  Fl.MaxDistanceSq_point_term Fl.rnd64 (mkRange 1 3) T 4000000000000000000
  == - (512) /\
  ~ fabs (Fl.MaxDistanceSq_point_term Fl.rnd64 (mkRange 1 3) T
            4000000000000000000) <= T / 2 /\
  Fl.MaxDistanceSq_bound_term Fl.rnd64 (mkRange 0 0)
    (mkRange (- (200000000000000000)) 400000000000000000) T == 32 /\
  ~ Fl.MaxDistanceSq_bound_term Fl.rnd64 (mkRange 0 0)
      (mkRange (- (200000000000000000)) 400000000000000000) T <= T / 2.
Proof.
  cbv zeta. repeat split; vm_compute; congruence.
Qed.

(** C7 (amended): under any rounding of the arithmetic in the sense of
    [Fl.Rounding] and any [t_pow] whose two powers are non-negative and
    monotone on non-negative arguments, for strictly positive periods and
    operands whose ends lie within [2^50] periods of the ends of the bound
    on every axis: each per-axis term of [MaxDistanceSq], for a point and
    for a bound, is at most the half period [box_size[d] / 2.0] in absolute
    value, and both overloads return at most the aggregate of the
    half-period vector. *)
Theorem MaxDistanceSq_capped
    (rnd pow_t root_t : Q -> Q) (b other : DHrectPeriodicBound) (p : vec) :
  Fl.Rounding rnd -> Fl.Power pow_t -> Fl.Power root_t ->
  length p = dim_ b ->
  dim_ b = dim_ other ->
  period_positive b = true ->
  near_point b p = true ->
  near_bound b other = true ->
  (forall d, (d < dim_ b)%nat ->
     fabs (Fl.MaxDistanceSq_point_term rnd (range_at b d)
             (at_ (box_size__ b) d) (at_ p d))
     <= Fl.div rnd (at_ (box_size__ b) d) 2 /\
     Fl.MaxDistanceSq_bound_term rnd (range_at b d) (range_at other d)
       (at_ (box_size__ b) d)
     <= Fl.div rnd (at_ (box_size__ b) d) 2) /\
  Fl.MaxDistanceSq_point rnd pow_t root_t b p
  <= Fl.half_period_sq rnd pow_t root_t b /\
  returns (Fl.MaxDistanceSq_bound rnd pow_t root_t b other) (fun M =>
    M <= Fl.half_period_sq rnd pow_t root_t b).
Proof.
  intros Hrnd Hpow Hroot Hlen Hdim Hpos Hnp Hnb.
  assert (Hp : forall d, (d < dim_ b)%nat ->
    fabs (Fl.MaxDistanceSq_point_term rnd (range_at b d)
            (at_ (box_size__ b) d) (at_ p d))
    <= Fl.div rnd (at_ (box_size__ b) d) 2).
  { intros d Hd. destruct (near_point_at b p d Hnp Hd) as [H1 H2].
    apply MaxDistanceSq_point_term_capped;
      [exact Hrnd | now apply period_positive_at | exact H1 | exact H2]. }
  assert (Hb : forall d, (d < dim_ b)%nat ->
    0 <= Fl.MaxDistanceSq_bound_term rnd (range_at b d) (range_at other d)
           (at_ (box_size__ b) d) /\
    Fl.MaxDistanceSq_bound_term rnd (range_at b d) (range_at other d)
      (at_ (box_size__ b) d)
    <= Fl.div rnd (at_ (box_size__ b) d) 2).
  { intros d Hd. destruct (near_bound_at b other d Hnb Hd) as [H1 H2].
    apply MaxDistanceSq_bound_term_capped;
      [exact Hrnd | now apply period_positive_at | exact H1 | exact H2]. }
  split; [| split].
  - intros d Hd. split; [apply (Hp d Hd) | apply (Hb d Hd)].
  - unfold Fl.MaxDistanceSq_point, Fl.half_period_sq.
    apply (aggregate_le rnd Hrnd pow_t root_t Hpow Hroot (dim_ b)
             (fun d => fabs (Fl.MaxDistanceSq_point_term rnd (range_at b d)
                               (at_ (box_size__ b) d) (at_ p d)))
             (fun d => Fl.div rnd (at_ (box_size__ b) d) 2)).
    intros d Hd. split; [apply Qabs_nonneg | apply (Hp d Hd)].
  - unfold Fl.MaxDistanceSq_bound, Fl.half_period_sq.
    rewrite <- Hdim, DEBUG_SAME_SIZE_refl. cbn [bind returns].
    apply (aggregate_le rnd Hrnd pow_t root_t Hpow Hroot (dim_ b)
             (fun d => Fl.MaxDistanceSq_bound_term rnd (range_at b d)
                         (range_at other d) (at_ (box_size__ b) d))
             (fun d => Fl.div rnd (at_ (box_size__ b) d) 2)).
    intros d Hd. apply (Hb d Hd).
Qed.

Lemma MaxDistanceSq_capped_witness :
  let b := mkBound [mkRange 1 3; mkRange (Fl.rnd64 (1 # 10)) 9]
                   [Fl.rnd64 (13 # 10); 12] in
  let other := mkBound [mkRange 7 9; mkRange 2 3] [10; 12] in
  let p := [4000000; Fl.rnd64 (- (71 # 10))] in
  (forall d, (d < dim_ b)%nat ->
     fabs (Fl.MaxDistanceSq_point_term Fl.rnd64 (range_at b d)
             (at_ (box_size__ b) d) (at_ p d))
     <= Fl.div Fl.rnd64 (at_ (box_size__ b) d) 2 /\
     Fl.MaxDistanceSq_bound_term Fl.rnd64 (range_at b d) (range_at other d)
       (at_ (box_size__ b) d)
     <= Fl.div Fl.rnd64 (at_ (box_size__ b) d) 2) /\
  Fl.MaxDistanceSq_point Fl.rnd64 Fl.pow2 Fl.root1 b p
  <= Fl.half_period_sq Fl.rnd64 Fl.pow2 Fl.root1 b /\
  returns (Fl.MaxDistanceSq_bound Fl.rnd64 Fl.pow2 Fl.root1 b other)
    (fun M => M <= Fl.half_period_sq Fl.rnd64 Fl.pow2 Fl.root1 b).
Proof.
  cbv zeta.
  apply (MaxDistanceSq_capped Fl.rnd64 Fl.pow2 Fl.root1
           (mkBound [mkRange 1 3; mkRange (Fl.rnd64 (1 # 10)) 9]
                    [Fl.rnd64 (13 # 10); 12])
           (mkBound [mkRange 7 9; mkRange 2 3] [10; 12])
           [4000000; Fl.rnd64 (- (71 # 10))]
           rnd64_Rounding pow2_Power root1_Power);
    vm_compute; reflexivity.
Defined.
